(** * Verification of [copr.v3.helpers.wait]

    A shallow embedding of the build-completion polling loop of the Copr
    Python client (python/copr/v3/helpers.py, function [wait]) and the
    properties its specification states about it.

    The loop talks to the outside world in four ways: it reads the clock
    ([time.time()]), it asks a proxy object for a fresh build
    ([proxy.get(build_id)]), it calls the user's callback, and it sleeps.
    Each of these is recorded as an [event] of the session's [trace], and
    what the world answers is given by an environment that may depend on
    the whole history of the session so far.

    What the model takes for granted:
    - the clock and the durations are integers (the docstring of [wait]
      gives [interval] and [timeout] as [int] seconds), so that
      [time.time() + timeout] and the comparison with it are exact;
    - a [dict] keeps its keys in the order of their first insertion, as
      Python does since 3.7;
    - the callback does not change the Munches it is shown;
    - the messages of the exceptions of the Python run time are left out
      (they are [""] here); those of [wait]'s own [raise] are kept;
    - the [while True] loop is run for a number of turns, [fuel]; the
      outcome is [Running] when the loop has not been left by then.

    The other functions of the module, [config_from_file],
    [for_all_methods], [bind_proxy], [succeeded] and
    [get_session_cookie], are embedded as well, each with what its model
    takes for granted where it is defined: the parsed file, the class
    and the HTTP session are inputs, as the clock and the frontends are
    for [wait]. *)

From stdpp Require Import base decidable option list sets gmap strings.
From Stdlib Require Import ZArith Lia.

Local Open Scope string_scope.
Local Open Scope list_scope.
Local Open Scope Z_scope.

(** ** Data model *)

(** Exceptions: the class that is raised and the message it carries.
    [CoprException] is the only class [wait] raises itself; the others are
    raised by the Python run time or by the world. *)
Inductive exn_class :=
| CoprException
| AttributeError
| KeyError
| ValueError
| OtherError (name : string).

Record exn := Exn { exn_cls : exn_class; exn_msg : string }.

Global Instance exn_class_eq_dec : EqDecision exn_class.
Proof. solve_decision. Defined.
Global Instance exn_eq_dec : EqDecision exn.
Proof. solve_decision. Defined.

(** A proxy object is known by its identity. *)
Definition proxy := nat.
Bind Scope nat_scope with proxy.

(** The [__proxy__] attribute of an object: absent ([hasattr] is false),
    present and [None] (what [List.__init__] stores by default), or a
    proxy object (what [bind_proxy] stores). *)
Inductive attr :=
| NoAttr
| AttrNone
| AttrProxy (p : proxy).

Global Instance attr_eq_dec : EqDecision attr.
Proof. solve_decision. Defined.

(** A build Munch: the attributes [wait] reads. *)
Record munch := Munch { id : Z; state : string; __proxy__ : attr }.

Global Instance munch_eq_dec : EqDecision munch.
Proof. solve_decision. Defined.

Definition hasattr_proxy (m : munch) : bool :=
  match __proxy__ m with NoAttr => false | _ => true end.

(** Python's [List]: a list that carries [meta], [__response__] and
    [__proxy__]; only the last one matters to [wait]. *)
Record List := MkList { items : list munch; List_proxy : attr }.

(** What [wait] may be given: a single Munch, a plain [list] of Munches
    (which has no [__proxy__]), or a [List]. *)
Inductive waitable_t :=
| OneMunch (m : munch)
| PlainList (l : list munch)
| ListObj (l : List).

Definition waitable_proxy (w : waitable_t) : attr :=
  match w with
  | OneMunch m => __proxy__ m
  | PlainList _ => NoAttr
  | ListObj l => List_proxy l
  end.

(** ** Dictionaries in insertion order

    [munches] is a Python [dict]: a key keeps the position of its first
    insertion, an assignment to a key that is present replaces the value
    in place, and [values()] lists the values by position. *)
Section dict.
Context {V : Type}.

Fixpoint dict_set (k : Z) (v : V) (d : list (Z * V)) : list (Z * V) :=
  match d with
  | [] => [(k, v)]
  | (k', v') :: d' =>
      if decide (k' = k) then (k, v) :: d' else (k', v') :: dict_set k v d'
  end.

Fixpoint dict_get (k : Z) (d : list (Z * V)) : option V :=
  match d with
  | [] => None
  | (k', v') :: d' => if decide (k' = k) then Some v' else dict_get k d'
  end.

Definition dict_of (kvs : list (Z * V)) : list (Z * V) :=
  foldl (λ d kv, dict_set kv.1 kv.2 d) [] kvs.

Definition dict_keys (d : list (Z * V)) : list Z := d.*1.
Definition dict_values (d : list (Z * V)) : list V := d.*2.
End dict.
Arguments dict_keys : simpl never.
Arguments dict_values : simpl never.

(** ** The world *)

Inductive event :=
| EvTime (t : Z)
| EvGet (p : proxy) (build_id : Z) (r : exn + munch)
| EvCallback (arg : list munch)
| EvSleep (seconds : Z).

Global Instance event_eq_dec : EqDecision event.
Proof. solve_decision. Defined.

(** The answers of the world, as functions of what happened so far:
    the clock, and the frontend behind every proxy. *)
Record world := World {
  time_time : list event → Z;
  proxy_get : list event → proxy → Z → exn + munch;
}.

(** A callback is called with the list of Munches; it returns, or raises. *)
Definition callback_t := list event → list munch → option exn.

(** Iteration over a Python [set] visits every element once, in an order
    the language does not fix. *)
Class SetOrder := {
  set_iter : gset Z → list Z;
  set_iter_perm : ∀ X, set_iter X ≡ₚ elements X;
}.

(** ** The session and its monad *)

Record session := Session {
  watched : gset Z;
  munches : list (Z * munch);
  failed : list Z;
  trace : list event;
}.

Definition M (A : Type) : Type := session → session * (exn + A).

Global Instance M_ret : MRet M := λ A a s, (s, inr a).
Global Instance M_bind : MBind M := λ A B f m s,
  match m s with
  | (s', inl e) => (s', inl e)
  | (s', inr a) => f a s'
  end.

Definition raise {A} (e : exn) : M A := λ s, (s, inl e).
Definition get_session : M session := λ s, (s, inr s).
Definition emit (e : event) : M unit :=
  λ s, (Session (watched s) (munches s) (failed s) (trace s ++ [e]), inr tt).
Definition set_munch (k : Z) (b : munch) : M unit :=
  λ s, (Session (watched s) (dict_set k b (munches s)) (failed s) (trace s), inr tt).
Definition failed_append (k : Z) : M unit :=
  λ s, (Session (watched s) (munches s) (failed s ++ [k]) (trace s), inr tt).
(** [set.remove] raises [KeyError] when the element is missing. *)
Definition watched_remove (k : Z) : M unit :=
  λ s, if decide (k ∈ watched s)
       then (Session (watched s ∖ {[k]}) (munches s) (failed s) (trace s), inr tt)
       else (s, inl (Exn KeyError "")).
Definition when (b : bool) (m : M unit) : M unit := if b then m else mret tt.

Fixpoint for_each (l : list Z) (body : Z → M unit) : M unit :=
  match l with
  | [] => mret tt
  | x :: l' => body x ;; for_each l' body
  end.

Inductive outcome :=
| Returned (l : list munch)
| Raised (e : exn)
| Running.

Global Instance outcome_eq_dec : EqDecision outcome.
Proof. solve_decision. Defined.

(** One such order. *)
Global Instance elements_order : SetOrder :=
  {| set_iter := elements; set_iter_perm := λ X, reflexivity (elements X) |}.

(** ** What one event does to the session *)

Definition terminal (st : string) : Prop :=
  st ∈ ["succeeded"; "skipped"; "failed"; "canceled"].

Global Instance terminal_dec st : Decision (terminal st).
Proof. unfold terminal. apply _. Defined.

Definition unknown_exn : exn := Exn CoprException "Unknown status.".
Definition timeout_exn : exn := Exn CoprException "Timeouted".

Definition log (e : event) (s : session) : session :=
  Session (watched s) (munches s) (failed s) (trace s ++ [e]).

(** The session after [proxy.get(i)] has answered [b]. *)
Definition store (p : proxy) (i : Z) (b : munch) (s : session) : session :=
  {| watched := if bool_decide (terminal (state b)) then watched s ∖ {[i]} else watched s;
     munches := dict_set i b (munches s);
     failed := if bool_decide (state b ∈ ["failed"]) then failed s ++ [i] else failed s;
     trace := trace s ++ [EvGet p i (inr b)] |}.

Ltac run_M :=
  repeat (progress (cbn [mbind mret M_bind M_ret raise get_session emit set_munch
                         failed_append when fst snd watched munches failed trace]
                    || unfold mbind, mret, M_bind, M_ret, raise, get_session, emit,
                         set_munch, failed_append, when)).

(** [succeeded]: whether the builds all finished successfully. *)
Definition succeeded (builds : list munch) : bool :=
  forallb (λ build, bool_decide (state build = "succeeded")) builds.

(** ** Reading a history *)

(** A property of every event of a history, given what came before it. *)
Definition each_event (P : list event → event → Prop) (h : list event) : Prop :=
  ∀ h1 e h2, h = h1 ++ e :: h2 → P h1 e.

(** The Munch that event [e] stored for build [i], if any. *)
Definition got (i : Z) (e : event) : option munch :=
  match e with
  | EvGet _ j (inr b) => if decide (j = i) then Some b else None
  | _ => None
  end.

Definition is_get (e : event) : Prop :=
  match e with EvGet _ _ _ => True | _ => False end.

Definition get_id (e : event) : option Z :=
  match e with EvGet _ j _ => Some j | _ => None end.

(** The builds that history [h] has seen "failed", in order. *)
Definition seen_failed (h : list event) : list Z :=
  omap (λ e, match e with
             | EvGet _ i (inr b) =>
                 if bool_decide (state b ∈ ["failed"]) then Some i else None
             | _ => None
             end) h.

(** How many times history [h] has fetched build [i]. *)
Definition count_gets (i : Z) (h : list event) : nat :=
  length (filter (λ e, get_id e = Some i) h).

(** How many times history [h] has slept. *)
Definition count_sleeps (h : list event) : nat :=
  length (omap (λ e, match e with EvSleep sec => Some sec | _ => None end) h).


(** ** Worlds to run [wait] in *)

(** A clock that starts at 0 and advances by the seconds slept. *)
Definition slept (h : list event) : Z :=
  foldr (λ e t, match e with EvSleep sec => sec + t | _ => t end) 0 h.

(** A build as a proxy hands it out on creation. *)
Definition new_build (i : Z) (p : proxy) : munch := Munch i "pending" (AttrProxy p).

(** Build 1 is "succeeded" when first fetched; any other build is
    "running" when first fetched and "failed" from then on. *)
Definition two_builds : world :=
  {| time_time := slept;
     proxy_get h p i :=
       inr (Munch i (if decide (i = 1) then "succeeded"
                     else if decide (count_gets i h = 0%nat) then "running"
                     else "failed") (AttrProxy p)) |}.

(** Builds that stay "running". *)
Definition stuck : world :=
  {| time_time := slept;
     proxy_get h p i := inr (Munch i "running" (AttrProxy p)) |}.

(** Build 1 is "running" when first fetched and "unknown" from then on;
    any other build stays "running". *)
Definition lost : world :=
  {| time_time := slept;
     proxy_get h p i :=
       inr (Munch i (if decide (i = 1 ∧ count_gets i h ≠ 0%nat) then "unknown"
                     else "running") (AttrProxy p)) |}.

(** Build 1 is "canceled"; any other build stays "running". *)
Definition called_off : world :=
  {| time_time := slept;
     proxy_get h p i :=
       inr (Munch i (if decide (i = 1) then "canceled" else "running")
              (AttrProxy p)) |}.

(** Frontends whose Munches come without a [__proxy__]. *)
Definition bare : world :=
  {| time_time := slept;
     proxy_get h p i := inr (Munch i "running" NoAttr) |}.

(** The frontend of build 2 cannot be reached; any other build stays
    "running". *)
Definition unreachable : world :=
  {| time_time := slept;
     proxy_get h p i :=
       if decide (i = 2)
       then inl (Exn (OtherError "CoprRequestException") "Unable to connect")
       else inr (Munch i "running" (AttrProxy p)) |}.

(** Builds that stay "running", and a clock that is 100 seconds on
    whenever it is read again. *)
Definition late : world :=
  {| time_time h := match h with [] => 0 | _ => 100 end;
     proxy_get h p i := inr (Munch i "running" (AttrProxy p)) |}.

(** Each build has a frontend of its own: proxy 7 knows build 1 only and
    proxy 8 build 2 only.  A build is "running" when first fetched and
    "succeeded" from then on. *)
Definition own : world :=
  {| time_time := slept;
     proxy_get h p i :=
       if decide ((p = 7%nat ∧ i = 1) ∨ (p = 8%nat ∧ i = 2))
       then inr (Munch i (if decide (count_gets i h = 0%nat) then "running"
                          else "succeeded") (AttrProxy p))
       else inl (Exn (OtherError "CoprNoResultException") "No such build") |}.

(** A callback that only looks. *)
Definition quiet : callback_t := λ _ _, None.

(** What to wait for: two builds from two proxies, in a plain list; one
    build, not in a list. *)
Definition two : waitable_t := PlainList [new_build 1 7; new_build 2 8].
Definition one : waitable_t := OneMunch (new_build 1 7).

(** Builds that did not come from a proxy. *)
Definition orphans : waitable_t :=
  PlainList [Munch 1 "pending" NoAttr; Munch 2 "pending" AttrNone].

(** ** The claims that do not hold of the code, as they are stated *)

(** C6 as stated: every build fetched in state "failed" or "canceled" is
    in the [failed] list. *)
Definition failure_terminal_recorded (s : session) : Prop :=
  ∀ p i b, EvGet p i (inr b) ∈ trace s →
           state b ∈ ["failed"; "canceled"] → i ∈ failed s.

(** C8 as stated: the two failures are of distinct kinds. *)
Definition failure_kinds_differ (o1 o2 : outcome) : Prop :=
  ∀ x y, o1 = Raised x → o2 = Raised y → exn_cls x ≠ exn_cls y.

(** ** [bind_proxy] and [for_all_methods] *)

(** What a method may give back: a Munch, a [List], or an object of any
    other type. *)
Inductive value :=
| VMunch (m : munch)
| VList (l : List)
| VOther (repr : string).

(** A method of a proxy class, as it is called on an instance: [args[0]]
    is [self], the proxy; [A] is what the other arguments are. *)
Definition method (A : Type) : Type := proxy → A → exn + value.

(** [type(result) in [List, Munch]] *)
Definition is_List_or_Munch (result : value) : bool :=
  match result with VOther _ => false | _ => true end.

(** [result.__proxy__ = self] *)
Definition set_proxy (result : value) (self : proxy) : value :=
  match result with
  | VMunch m => VMunch (Munch (id m) (state m) (AttrProxy self))
  | VList l => VList (MkList (items l) (AttrProxy self))
  | VOther r => VOther r
  end.

Definition bind_proxy {A} (func : method A) : method A :=
  λ self args,
    match func self args with
    | inl e => inl e
    | inr result =>
        if negb (is_List_or_Munch result) then inr result
        else inr (set_proxy result self)
    end.

(** An attribute of a class, as it is in a [__dict__]:
    - [Function f], a plain function, [def name(self, ...)]:
      [getattr(cls, name)] is the function, and [self.name(args)] calls
      it with the instance before the arguments, [f self args];
    - [NonBinding direct shifted], a callable that is not given the
      instance when it is looked up on one: a [staticmethod], a
      [classmethod] (it is given the class), a nested class, another
      callable object.  [self.name(args)] calls it with the arguments
      alone, which does [direct args]; [getattr(cls, name)] is callable
      and, called with an instance before the arguments, as the wrapper
      of a decorator calls it, does [shifted self args];
    - [NotCallable data call], an attribute for which
      [callable(getattr(cls, name))] is false: a plain value, a
      [property].  [call self args] is what [self.name(args)] does (a
      [TypeError] for a value that cannot be called); [data] tells a
      data descriptor, such as a [property], which is looked up before
      the attributes of the instance. *)
Inductive member (A : Type) :=
| Function (f : method A)
| NonBinding (direct : A → exn + value) (shifted : method A)
| NotCallable (data : bool) (call : method A).
Arguments Function {A} f.
Arguments NonBinding {A} direct shifted.
Arguments NotCallable {A} data call.

(** A class: its own [__dict__], and what the lookup of an attribute
    finds in its base classes.  The class has no [__getattr__] or
    [__getattribute__] of its own. *)
Record pyclass (A : Type) := PyClass {
  own_dict : gmap string (member A);
  inherited : string → option (member A) }.
Arguments PyClass {A} own_dict inherited.
Arguments own_dict {A} p.
Arguments inherited {A} p.

(** [getattr(cls, attr)], when it is callable: what it does when it is
    called with an instance before the arguments. *)
Definition getattr_callable {A} (m : member A) : option (method A) :=
  match m with
  | Function f => Some f
  | NonBinding _ shifted => Some shifted
  | NotCallable _ _ => None
  end.

(** The decorator goes through the class's own [__dict__]; what it puts
    there with [setattr] is the wrapper, a plain function.  The base
    classes are not touched. *)
Definition for_all_methods {A} (decorator : method A → method A)
    (cls : pyclass A) : pyclass A :=
  PyClass ((λ m, match getattr_callable m with
                 | Some f => Function (decorator f)
                 | None => m
                 end) <$> own_dict cls)
          (inherited cls).

(** The attribute of the class: its own, or else an inherited one. *)
Definition mro_lookup {A} (cls : pyclass A) (name : string) : option (member A) :=
  match own_dict cls !! name with
  | Some m => Some m
  | None => inherited cls name
  end.

(** Calling what the class has under a name, for an instance. *)
Definition call_found {A} (found : option (member A)) (self : proxy)
    (args : A) : exn + value :=
  match found with
  | Some (Function f) => f self args
  | Some (NonBinding direct _) => direct args
  | Some (NotCallable _ call) => call self args
  | None => inl (Exn AttributeError "")
  end.

(** [self.name(args)] on an instance of the class; [attrs] is the
    [__dict__] of the instance, an attribute of which is called with the
    arguments alone.  A data descriptor of the class comes first, then
    the attributes of the instance, then the other attributes of the
    class. *)
Definition call_method {A} (cls : pyclass A)
    (attrs : gmap string (A → exn + value)) (name : string)
    (self : proxy) (args : A) : exn + value :=
  match mro_lookup cls name, attrs !! name with
  | Some (NotCallable true call), _ => call self args
  | _, Some g => g args
  | found, None => call_found found self args
  end.

(** Frontends that hand out every Munch with the proxy it came through. *)
Definition bound (W : world) : Prop :=
  ∀ h p i b, proxy_get W h p i = inr b → __proxy__ b = AttrProxy p.



(** ** [succeeded], as it is called *)

(** [type(builds) == list] is false of a [List], which is then taken for
    a single build, and has no [state]. *)
Definition succeeded_call (builds : waitable_t) : exn + bool :=
  match builds with
  | PlainList l => inr (succeeded l)
  | OneMunch m => inr (succeeded [m])
  | ListObj l => inl (Exn AttributeError "")
  end.

(** ** [config_from_file] *)

(** What a section of the parsed file answers for an option: nothing,
    its value, or the [configparser.Error] that interpolating the value
    raises ([inl], with its message).  The defaults of the file are part
    of the answers. *)
Definition section_view : Type := string → option (string + string).

(** What [raw_config.read(path)] does: it raises [configparser.Error], it
    reads no file, or it reads the file, whose sections are then there.
    A file that cannot be decoded, which [read] answers with an exception
    of another class, is left out. *)
Inductive read_result :=
| ReadError (msg : string)
| ReadNothing
| ReadFile (sections : string → option section_view).

Record config := Config {
  username : option string;
  login : option string;
  token : option string;
  copr_url : option string;
  gssapi : bool;
  encrypted : bool;
}.

Definition configparser_Error (msg : string) : exn :=
  Exn (OtherError "configparser.Error") msg.
Definition CoprConfigException (msg : string) : exn :=
  Exn (OtherError "CoprConfigException") msg.

Definition ascii_lower (c : Ascii.ascii) : Ascii.ascii :=
  let n := Ascii.nat_of_ascii c in
  if ((65 <=? n) && (n <=? 90))%nat then Ascii.ascii_of_nat (n + 32) else c.

(** [str.lower], on the letters A to Z. *)
Fixpoint lower (s : string) : string :=
  match s with
  | EmptyString => EmptyString
  | String c s' => String (ascii_lower c) (lower s')
  end.

Definition BOOLEAN_STATES : list (string * bool) :=
  [("1", true); ("yes", true); ("true", true); ("on", true);
   ("0", false); ("no", false); ("false", false); ("off", false)].

(** [ConfigParser._convert_to_boolean] *)
Definition convert_to_boolean (v : string) : exn + bool :=
  match list_find (λ kv, kv.1 = lower v) BOOLEAN_STATES with
  | Some (_, (_, b)) => inr b
  | None => inl (Exn ValueError ("Not a boolean: " +:+ v))
  end.

(** [section.get(option, None)] *)
Definition section_get (sec : section_view) (o : string) : exn + option string :=
  match sec o with
  | None => inr None
  | Some (inr v) => inr (Some v)
  | Some (inl msg) => inl (configparser_Error msg)
  end.

(** [section.getboolean(option, fallback)] *)
Definition section_getboolean (sec : section_view) (o : string)
    (fallback : bool) : exn + bool :=
  match sec o with
  | None => inr fallback
  | Some (inr v) => convert_to_boolean v
  | Some (inl msg) => inl (configparser_Error msg)
  end.

(** The value of an option that is set and interpolates. *)
Definition plain_value (sec : section_view) (o : string) : option string :=
  match sec o with Some (inr v) => Some v | _ => None end.

Definition andThen {A B} (r : exn + A) (k : A → exn + B) : exn + B :=
  match r with inl e => inl e | inr a => k a end.

(** The section that is put in when no file was read. *)
Definition default_sections : string → option section_view :=
  λ name,
    if decide (name = "copr-cli")
    then Some (λ o, if decide (o = "copr_url")
                    then Some (inr "https://copr.fedorainfracloud.org")
                    else None)
    else None.

(** The second [try]: the fields read from the section [copr-cli]. *)
Definition read_fields (sections : string → option section_view) : exn + config :=
  match sections "copr-cli" with
  | None => inl (Exn KeyError "")
  | Some sec =>
      andThen (section_get sec "username") (λ username,
      andThen (section_get sec "login") (λ login,
      andThen (section_get sec "token") (λ token,
      andThen (section_get sec "copr_url") (λ copr_url,
      andThen (section_get sec "gssapi") (λ _,
      andThen (section_getboolean sec "encrypted" true) (λ encrypted,
      andThen (section_getboolean sec "gssapi" false) (λ gssapi,
      inr (Config username login token copr_url gssapi encrypted))))))))
  end.

(** [str.startswith] *)
Definition startswith (s pre : string) : bool := String.prefix pre s.

Definition config_from_file (read : read_result) : exn + config :=
  match read with
  | ReadError msg => inl (CoprConfigException msg)
  | _ =>
      let sections :=
        match read with ReadFile sections => sections | _ => default_sections end in
      match read_fields sections with
      | inl e =>
          if decide (exn_cls e = OtherError "configparser.Error")
          then inl (CoprConfigException ("Bad configuration file: " +:+ exn_msg e))
          else inl e
      | inr config =>
          if encrypted config then
            match copr_url config with
            | None => inl (Exn AttributeError "")
            | Some url =>
                if startswith url "http://"
                then inl (CoprConfigException
                  "The `copr_url` should not be http, please obtain an up-to-date configuration from the Copr website")
                else inr config
            end
          else inr config
      end
  end.

(** ** [get_session_cookie] *)

(** What [session.get(url, ...)] does: the Kerberos exchange fails, some
    other exception is raised, or there is a response with its cookies. *)
Inductive http_answer :=
| SPNEGOExchangeError
| HttpRaises (e : exn)
| Response (cookies : string → option string).

(** [config["copr_url"] + "/api_v3/gssapi_login/"]: [None] cannot be
    added to. *)
Definition login_url (config : config) : exn + string :=
  match copr_url config with
  | None => inl (Exn (OtherError "TypeError") "")
  | Some u => inr (u +:+ "/api_v3/gssapi_login/")
  end.

Definition CoprGssapiException (msg : string) : exn :=
  Exn (OtherError "CoprGssapiException") msg.

Definition get_session_cookie (session_get : string → http_answer)
    (config : config) : exn + option string :=
  andThen (login_url config) (λ url,
    match session_get url with
    | SPNEGOExchangeError =>
        inl (CoprGssapiException "Operation requires api authentication, take a kerberos ticket
      (https://fedoraproject.org/wiki/Infrastructure/Kerberos), or obtain an API token
      (https://python-copr.readthedocs.io/en/latest/ClientV3.html#example-usage)")
    | HttpRaises e => inl e
    | Response cookies => inr (cookies "session")
    end).

(** ** Configuration files to read *)

(** A section with the options given, none of them interpolated. *)
Fixpoint plain_section (opts : list (string * string)) : section_view :=
  λ o, match opts with
       | [] => None
       | (k, v) :: opts' =>
           if decide (k = o) then Some (inr v) else plain_section opts' o
       end.

(** A file whose one section is [copr-cli]. *)
Definition cli_file (opts : list (string * string)) : string → option section_view :=
  λ name, if decide (name = "copr-cli") then Some (plain_section opts) else None.

(** ** [wait] *)

Section wait.
Context {order : SetOrder}.
Variable W : world.
Variable waitable : waitable_t.
Variable interval : Z.
Variable callback : option callback_t.
Variable timeout : Z.

Definition builds : list munch :=
  match waitable with
  | OneMunch m => [m]
  | PlainList l => l
  | ListObj l => items l
  end.

Definition init : session :=
  {| watched := list_to_set (id <$> builds);
     munches := dict_of ((λ build, (id build, build)) <$> builds);
     failed := [];
     trace := [] |}.

Definition time_now : M Z :=
  s ← get_session;
  let t := time_time W (trace s) in
  emit (EvTime t);; mret t.

(** [time.sleep] refuses a negative length. *)
Definition time_sleep (seconds : Z) : M unit :=
  emit (EvSleep seconds);;
  if decide (seconds < 0)
  then raise (Exn ValueError "sleep length must be non-negative")
  else mret tt.

(** [munches[build_id]] *)
Definition munches_lookup (build_id : Z) : M munch :=
  s ← get_session;
  match dict_get build_id (munches s) with
  | Some m => mret m
  | None => raise (Exn KeyError "")
  end.

(** [waitable.__proxy__] *)
Definition getattr_proxy (a : attr) : M attr :=
  match a with
  | NoAttr => raise (Exn AttributeError "")
  | _ => mret a
  end.

(** [proxy.get(build_id)] *)
Definition call_get (pr : attr) (build_id : Z) : M munch :=
  match pr with
  | AttrProxy p =>
      s ← get_session;
      let r := proxy_get W (trace s) p build_id in
      emit (EvGet p build_id r);;
      match r with
      | inl e => raise e
      | inr build => mret build
      end
  | _ => raise (Exn AttributeError "")
  end.

(** The body of the [for] loop. *)
Definition refresh (build_id : Z) : M unit :=
  cur ← munches_lookup build_id;
  pr ← (if hasattr_proxy cur then mret (__proxy__ cur)
        else getattr_proxy (waitable_proxy waitable));
  build ← call_get pr build_id;
  set_munch build_id build;;
  when (bool_decide (state build ∈ ["failed"]))
    (failed_append build_id);;
  when (bool_decide (state build ∈ ["succeeded"; "skipped"; "failed"; "canceled"]))
    (watched_remove build_id);;
  when (bool_decide (state build = "unknown"))
    (raise (Exn CoprException "Unknown status.")).

Definition run_callback : M unit :=
  match callback with
  | None => mret tt
  | Some cb =>
      s ← get_session;
      let arg := dict_values (munches s) in
      emit (EvCallback arg);;
      match cb (trace s) arg with
      | Some e => raise e
      | None => mret tt
      end
  end.

Definition check_timeout (terminate : Z) : M unit :=
  if decide (timeout = 0) then mret tt
  else
    now ← time_now;
    when (bool_decide (terminate ≤ now))
      (raise (Exn CoprException "Timeouted")).

(** One turn of the [while True] loop: [Some l] when the loop is left
    with [l] to return, [None] when it goes round again. *)
Definition wait_round (terminate : Z) : M (option (list munch)) :=
  s ← get_session;
  for_each (set_iter (watched s)) refresh;;
  run_callback;;
  s' ← get_session;
  if decide (watched s' = ∅)
  then mret (Some (dict_values (munches s')))
  else
    check_timeout terminate;;
    time_sleep interval;;
    mret None.

Fixpoint wait_loop (fuel : nat) (terminate : Z) : M (option (list munch)) :=
  match fuel with
  | O => mret None
  | S fuel' =>
      r ← wait_round terminate;
      match r with
      | Some l => mret (Some l)
      | None => wait_loop fuel' terminate
      end
  end.

Definition wait_body (fuel : nat) : M (option (list munch)) :=
  t0 ← time_now;
  wait_loop fuel (t0 + timeout).

Definition to_outcome (r : exn + option (list munch)) : outcome :=
  match r with
  | inl e => Raised e
  | inr (Some l) => Returned l
  | inr None => Running
  end.

(** [wait fuel]: the session and the outcome after at most [fuel] turns
    of the loop; [Running] when the loop has not been left by then. *)
Definition wait (fuel : nat) : session * outcome :=
  let '(s, r) := wait_body fuel init in (s, to_outcome r).
(** The attribute through which [refresh] reaches the frontend for a
    build whose latest Munch is [cur]. *)
Definition resolve (cur : munch) : attr :=
  if hasattr_proxy cur then __proxy__ cur else waitable_proxy waitable.

(** The deadline computed on entry. *)
Definition terminate : Z := time_time W [] + timeout.

(** The session once the clock has been read on entry to [wait]. *)
Definition entered : session := log (EvTime (time_time W [])) init.

(** ** Events that end the session

    [fatal h e] is the exception with which [wait] ends when event [e]
    happens after history [h], if it does: a fetch that raises or answers
    "unknown", a callback that raises, a reading of the clock at or past
    the deadline (every reading but the first is such a check), a sleep
    of negative length. *)
Definition fatal (h : list event) (e : event) : option exn :=
  match e with
  | EvGet _ _ (inl x) => Some x
  | EvGet _ _ (inr b) =>
      if bool_decide (state b = "unknown") then Some unknown_exn else None
  | EvTime t =>
      if bool_decide (h ≠ [] ∧ terminate ≤ t) then Some timeout_exn else None
  | EvCallback arg =>
      match callback with Some cb => cb h arg | None => None end
  | EvSleep sec =>
      if bool_decide (sec < 0)
      then Some (Exn ValueError "sleep length must be non-negative")
      else None
  end.

Definition live (h : list event) : Prop :=
  each_event (λ h1 e, fatal h1 e = None) h.

(** ** The session as a transition system

    One step is one event.  A step is taken only from a session none of
    whose events was fatal. *)
Inductive step : session → session → Prop :=
| step_clock s :
    live (trace s) → trace s ≠ [] → timeout ≠ 0 → watched s ≠ ∅ →
    step s (log (EvTime (time_time W (trace s))) s)
| step_get_raise s i cur p x :
    live (trace s) → trace s ≠ [] → i ∈ watched s →
    dict_get i (munches s) = Some cur → resolve cur = AttrProxy p →
    proxy_get W (trace s) p i = inl x →
    step s (log (EvGet p i (inl x)) s)
| step_get_store s i cur p b :
    live (trace s) → trace s ≠ [] → i ∈ watched s →
    dict_get i (munches s) = Some cur → resolve cur = AttrProxy p →
    proxy_get W (trace s) p i = inr b →
    step s (store p i b s)
| step_callback s cb :
    live (trace s) → trace s ≠ [] → callback = Some cb →
    step s (log (EvCallback (dict_values (munches s))) s)
| step_sleep s :
    live (trace s) → trace s ≠ [] → watched s ≠ ∅ →
    step s (log (EvSleep interval) s).

Definition reach (s : session) : Prop := rtc step entered s.

(** ** What the trace says about a build *)

(** The latest Munch of build [i] after history [h]: the last one that
    was fetched, the one [wait] was given when none was. *)
Definition snapshot (h : list event) (i : Z) : option munch :=
  match last (omap (got i) h) with
  | Some b => Some b
  | None => dict_get i (munches init)
  end.

(** How an exception that ends the session came about: from a fatal
    event, the last of the trace; or, with no event, because a watched
    build had no proxy to be fetched through. *)
Definition raised_by (s : session) (x : exn) : Prop :=
  (∃ h e, trace s = h ++ [e] ∧ fatal h e = Some x) ∨
  (live (trace s) ∧ x = Exn AttributeError "" ∧
   ∃ i cur, i ∈ watched s ∧ dict_get i (munches s) = Some cur ∧
            ∀ p, resolve cur ≠ AttrProxy p).

Definition explained (s : session) (o : outcome) : Prop :=
  match o with
  | Returned l => live (trace s) ∧ watched s = ∅ ∧ l = dict_values (munches s)
  | Running => live (trace s)
  | Raised x => raised_by s x
  end.

(** What every event of a trace of [wait] satisfies, given the history
    [h] before it: the clock and the frontends answer as the world says;
    a build is fetched only while no terminal state of it was seen, and
    through the proxy its latest Munch resolves to; the callback is given
    the latest Munch of every key of [munches]. *)
Definition event_ok (h : list event) (e : event) : Prop :=
  match e with
  | EvTime t => t = time_time W h
  | EvGet p i r =>
      r = proxy_get W h p i ∧ i ∈ watched init ∧
      (∃ cur, snapshot h i = Some cur ∧ resolve cur = AttrProxy p) ∧
      (∀ b, b ∈ omap (got i) h → ¬ terminal (state b))
  | EvCallback arg =>
      is_Some callback ∧
      Some <$> arg = snapshot h <$> dict_keys (munches init)
  | EvSleep sec => sec = interval
  end.

(** The events of a turn of the loop after its fetches: the call of the
    callback, if there is one, with the values of [munches]; then
    possibly a reading of the clock, then possibly a sleep. *)
Definition callback_events (s : session) : list event :=
  match callback with
  | Some _ => [EvCallback (dict_values (munches s))]
  | None => []
  end.

Definition round_tail (tail : list event) : Prop :=
  ∃ clk slp, tail = clk ++ slp ∧
    (clk = [] ∨ ∃ t, clk = [EvTime t]) ∧ (slp = [] ∨ slp = [EvSleep interval]).

(** [s'] is [s] with the events [evs] added to its trace. *)
Definition logs (s s' : session) (evs : list event) : Prop :=
  trace s' = trace s ++ evs ∧ munches s' = munches s ∧
  watched s' = watched s ∧ failed s' = failed s.

(** How a turn of the loop ends. *)
Definition round_end (s' : session) (r : exn + option (list munch)) : Prop :=
  match r with
  | inl x => raised_by s' x
  | inr (Some l) =>
      live (trace s') ∧ watched s' = ∅ ∧ l = dict_values (munches s')
  | inr None =>
      live (trace s') ∧ watched s' ≠ ∅ ∧ ∃ h, trace s' = h ++ [EvSleep interval]
  end.

(** Proxy [p] is the fetch capability of build [b]: [b] is fetched
    through [p], and whenever [p] is asked for the build it answers with
    a Munch, not in state "unknown", that is fetched through [p] in
    turn.  Nothing is asked of what [p] answers for another build. *)
Definition capability (b : munch) (p : proxy) : Prop :=
  resolve b = AttrProxy p ∧
  ∀ h, ∃ b', proxy_get W h p (id b) = inr b' ∧ state b' ≠ "unknown" ∧
             resolve b' = AttrProxy p.

(** ** Dictionaries *)

Lemma dict_get_set_eq {V} k (v : V) d : dict_get k (dict_set k v d) = Some v.
Proof.
  induction d as [|[k' v'] d IH]; simpl.
  - by rewrite decide_True.
  - destruct (decide (k' = k)); simpl.
    + by rewrite decide_True.
    + by rewrite decide_False.
Qed.

Lemma dict_get_set_ne {V} k k' (v : V) d :
  k ≠ k' → dict_get k' (dict_set k v d) = dict_get k' d.
Proof.
  intros Hne. induction d as [|[k0 v0] d IH]; simpl.
  - by rewrite decide_False.
  - destruct (decide (k0 = k)) as [->|]; simpl.
    + by rewrite !decide_False.
    + by rewrite IH.
Qed.

Lemma dict_get_is_Some {V} k (d : list (Z * V)) :
  is_Some (dict_get k d) ↔ k ∈ dict_keys d.
Proof.
  unfold dict_keys. induction d as [|[k' v'] d IH]; csimpl.
  - split; [by intros [? ?]|by intros ?%elem_of_nil].
  - rewrite elem_of_cons. destruct (decide (k' = k)) as [->|].
    + split; eauto.
    + rewrite IH. naive_solver.
Qed.

Lemma dict_keys_set_in {V} k (v : V) d :
  k ∈ dict_keys d → dict_keys (dict_set k v d) = dict_keys d.
Proof.
  unfold dict_keys. induction d as [|[k' v'] d IH]; csimpl.
  - by intros ?%elem_of_nil.
  - intros Hin. destruct (decide (k' = k)) as [->|]; csimpl; [done|].
    apply elem_of_cons in Hin as [->|Hin]; [done|]. by rewrite IH.
Qed.

Lemma dict_keys_set_notin {V} k (v : V) d :
  k ∉ dict_keys d → dict_set k v d = d ++ [(k, v)].
Proof.
  unfold dict_keys. induction d as [|[k' v'] d IH]; csimpl; [done|].
  intros [Hne Hnin]%not_elem_of_cons.
  rewrite decide_False by done. by rewrite IH.
Qed.

Lemma dict_of_app {V} (acc kvs : list (Z * V)) :
  NoDup ((acc ++ kvs).*1) →
  foldl (λ d kv, dict_set kv.1 kv.2 d) acc kvs = acc ++ kvs.
Proof.
  revert acc. induction kvs as [|[k v] kvs IH]; intros acc Hnd; csimpl.
  - by rewrite app_nil_r.
  - assert (k ∉ dict_keys acc) as Hk.
    { rewrite fmap_app in Hnd. apply NoDup_app in Hnd as (_ & Hd & _).
      intros Hin. apply (Hd k Hin). csimpl. left. }
    rewrite (dict_keys_set_notin _ _ _ Hk).
    rewrite IH; rewrite <- app_assoc; done.
Qed.

Lemma dict_of_NoDup {V} (kvs : list (Z * V)) :
  NoDup (kvs.*1) → dict_of kvs = kvs.
Proof. intros. unfold dict_of. by rewrite dict_of_app. Qed.

Lemma dict_of_keys_elem {V} (acc kvs : list (Z * V)) k :
  k ∈ dict_keys (foldl (λ d kv, dict_set kv.1 kv.2 d) acc kvs)
  ↔ k ∈ dict_keys acc ∨ k ∈ kvs.*1.
Proof.
  revert acc. induction kvs as [|[k0 v0] kvs IH]; intros acc; csimpl.
  - rewrite elem_of_nil. naive_solver.
  - rewrite IH, elem_of_cons.
    destruct (decide (k0 ∈ dict_keys acc)) as [Hin|Hnin].
    + rewrite dict_keys_set_in by done. naive_solver.
    + rewrite dict_keys_set_notin by done. unfold dict_keys.
      rewrite fmap_app, elem_of_app. csimpl. rewrite list_elem_of_singleton.
      naive_solver.
Qed.

Lemma dict_of_get {V} (acc kvs : list (Z * V)) k v :
  dict_get k (foldl (λ d kv, dict_set kv.1 kv.2 d) acc kvs) = Some v →
  (k, v) ∈ kvs ∨ dict_get k acc = Some v.
Proof.
  revert acc. induction kvs as [|[k0 v0] kvs IH]; intros acc; csimpl; [by right|].
  intros [Hin|Hget]%IH; [left; by right|].
  destruct (decide (k0 = k)) as [->|Hne].
  - rewrite dict_get_set_eq in Hget. injection Hget as ->. left. left.
  - rewrite dict_get_set_ne in Hget by done. by right.
Qed.

Lemma dict_values_length {V} (d : list (Z * V)) :
  length (dict_values d) = length (dict_keys d).
Proof. unfold dict_values, dict_keys. by rewrite !length_fmap. Qed.

Lemma dict_values_lookup {V} (d : list (Z * V)) :
  NoDup (dict_keys d) →
  Some <$> dict_values d = (λ k, dict_get k d) <$> dict_keys d.
Proof.
  unfold dict_values, dict_keys.
  induction d as [|[k v] d IH]; csimpl; [done|].
  intros [Hnin Hnd]%NoDup_cons. rewrite decide_True by done. f_equal.
  rewrite IH by done. apply list_fmap_ext. intros n k' Hk'.
  rewrite decide_False; [done|]. intros ->. apply Hnin.
  by eapply list_elem_of_lookup_2.
Qed.

Lemma dict_set_NoDup {V} k (v : V) d :
  NoDup (dict_keys d) → NoDup (dict_keys (dict_set k v d)).
Proof.
  intros Hnd. destruct (decide (k ∈ dict_keys d)) as [Hin|Hnin].
  - by rewrite dict_keys_set_in.
  - rewrite dict_keys_set_notin by done. unfold dict_keys in *.
    rewrite fmap_app. csimpl. apply NoDup_app. split_and!; [done| |apply NoDup_singleton].
    intros x Hx ->%list_elem_of_singleton. done.
Qed.

Lemma dict_of_keys_NoDup {V} (kvs : list (Z * V)) : NoDup (dict_keys (dict_of kvs)).
Proof.
  unfold dict_of. assert (NoDup (dict_keys ([] : list (Z * V)))) as Hacc by constructor.
  revert Hacc. generalize ([] : list (Z * V)).
  induction kvs as [|[k v] kvs IH]; intros acc Hacc; csimpl; [done|].
  apply IH. by apply dict_set_NoDup.
Qed.

(** ** Histories *)

Lemma snoc_split {A} (h : list A) e' h1 e h2 :
  h ++ [e'] = h1 ++ e :: h2 →
  (h2 = [] ∧ h1 = h ∧ e = e') ∨ (∃ h2', h2 = h2' ++ [e'] ∧ h = h1 ++ e :: h2').
Proof.
  destruct h2 as [|x h2 _] using rev_ind.
  - intros [-> ->]%app_inj_tail. by left.
  - rewrite app_comm_cons, app_assoc. intros [-> ->]%app_inj_tail. right. eauto.
Qed.

Lemma each_event_nil P : each_event P [].
Proof. intros h1 e h2 Heq. by destruct h1. Qed.

Lemma each_event_snoc P h e : each_event P h → P h e → each_event P (h ++ [e]).
Proof.
  intros Hh He h1 e1 h2 Heq.
  apply snoc_split in Heq as [(-> & -> & ->)|(h2' & -> & ->)]; [done|].
  by eapply Hh.
Qed.

Lemma each_event_snoc_inv P h e : each_event P (h ++ [e]) → each_event P h ∧ P h e.
Proof.
  intros H. split.
  - intros h1 e1 h2 ->. apply (H h1 e1 (h2 ++ [e])).
    by rewrite <- app_assoc.
  - by apply (H h e []).
Qed.

Lemma each_event_app P l1 l2 :
  each_event P l1 → (∀ h1 e h2, l2 = h1 ++ e :: h2 → P (l1 ++ h1) e) →
  each_event P (l1 ++ l2).
Proof.
  induction l2 as [|e l2 IH] using rev_ind; intros H1 H2.
  - by rewrite app_nil_r.
  - rewrite app_assoc. apply each_event_snoc.
    + apply IH; [done|]. intros h1 e' h2 ->. apply (H2 h1 e' (h2 ++ [e])).
      by rewrite <- app_assoc.
    + apply (H2 l2 e []). done.
Qed.

Lemma snapshot_snoc h e i :
  snapshot (h ++ [e]) i =
    match got i e with Some b => Some b | None => snapshot h i end.
Proof.
  unfold snapshot. rewrite omap_app. csimpl.
  destruct (got i e) as [b|]; csimpl.
  - by rewrite last_snoc.
  - by rewrite app_nil_r.
Qed.

Lemma seen_failed_snoc h e :
  seen_failed (h ++ [e]) = seen_failed h ++ seen_failed [e].
Proof. unfold seen_failed. by rewrite omap_app. Qed.

(** ** Steps *)

Ltac step_cases H :=
  destruct H as [s ? ? ? ?|s j cur p x ? ? ? ? ? ?|s j cur p b ? ? ? ? ? ?
                 |s cb ? ? ?|s ? ? ?].

Lemma step_live s s' : step s s' → live (trace s) ∧ trace s ≠ [].
Proof. intros H. by step_cases H. Qed.

Lemma step_trace s s' : step s s' → ∃ e, trace s' = trace s ++ [e].
Proof. intros H. step_cases H; simpl; eauto. Qed.

Lemma step_watched s s' : step s s' → watched s' ⊆ watched s.
Proof.
  intros H. step_cases H; simpl; try done.
  case_bool_decide; set_solver.
Qed.

Lemma step_keys s s' :
  step s s' → dict_keys (munches s') = dict_keys (munches s).
Proof.
  intros H. step_cases H; simpl; try done.
  apply dict_keys_set_in, dict_get_is_Some. eauto.
Qed.

Lemma steps_watched s s' : rtc step s s' → watched s' ⊆ watched s.
Proof.
  induction 1 as [|s1 s2 s3 H12 _ IH]; [done|].
  apply step_watched in H12. set_solver.
Qed.

Lemma steps_trace s s' : rtc step s s' → ∃ evs, trace s' = trace s ++ evs.
Proof.
  induction 1 as [|s1 s2 s3 H12 _ (evs & ->)].
  - exists []. by rewrite app_nil_r.
  - apply step_trace in H12 as (e & ->). exists (e :: evs).
    by rewrite <- app_assoc.
Qed.

Lemma steps_keys s s' :
  rtc step s s' → dict_keys (munches s') = dict_keys (munches s).
Proof.
  induction 1 as [|s1 s2 s3 H12 _ IH]; [done|].
  rewrite IH. by apply step_keys.
Qed.

(** ** Invariants of the sessions [wait] goes through *)

Lemma init_keys i : i ∈ dict_keys (munches init) ↔ i ∈ watched init.
Proof.
  unfold init, dict_of; simpl. rewrite dict_of_keys_elem.
  rewrite elem_of_list_to_set, <- list_fmap_compose.
  unfold dict_keys; csimpl. rewrite elem_of_nil. naive_solver.
Qed.

Lemma init_keys_NoDup : NoDup (dict_keys (munches init)).
Proof. apply dict_of_keys_NoDup. Qed.

Lemma reach_nonempty s : reach s → trace s ≠ [].
Proof.
  intros [<-|(s1 & _ & (e & ->)%step_trace)]%rtc_inv_r.
  - done.
  - by destruct (trace s1).
Qed.

Lemma reach_keys s : reach s → dict_keys (munches s) = dict_keys (munches init).
Proof. intros H. by apply steps_keys in H. Qed.

Lemma reach_watched s : reach s → watched s ⊆ watched init.
Proof. intros H. by apply steps_watched in H. Qed.

Lemma reach_watched_key s i :
  reach s → i ∈ watched s → is_Some (dict_get i (munches s)).
Proof.
  intros Hr Hi. apply dict_get_is_Some. rewrite reach_keys by done.
  apply init_keys. by apply reach_watched in Hr; set_solver.
Qed.

Lemma reach_prefix_live s h e : reach s → trace s = h ++ [e] → live h.
Proof.
  intros [<-|(s1 & _ & Hst)]%rtc_inv_r Heq.
  - simpl in Heq. destruct h; simplify_list_eq; [apply each_event_nil|].
    by destruct h.
  - destruct (step_live _ _ Hst) as [Hl _].
    apply step_trace in Hst as (e' & Heq'). rewrite Heq' in Heq.
    by apply app_inj_tail in Heq as [<- _].
Qed.

(** Once a fatal event has happened, nothing else does. *)
Lemma reach_fatal_last s h1 e h2 x :
  reach s → trace s = h1 ++ e :: h2 → fatal h1 e = Some x → h2 = [].
Proof.
  intros Hr Heq Hf. destruct h2 as [|e' h2 _] using rev_ind; [done|].
  rewrite app_comm_cons, app_assoc in Heq.
  pose proof (reach_prefix_live _ _ _ Hr Heq) as Hl.
  rewrite (Hl h1 e h2 eq_refl) in Hf. done.
Qed.

Lemma reach_induction (P : session → Prop) :
  P entered →
  (∀ s s', reach s → step s s' → P s → P s') →
  ∀ s, reach s → P s.
Proof.
  intros H0 Hstep s Hr. unfold reach in Hr.
  revert s Hr. apply rtc_ind_r; [done|]. intros s s' Hr Hst IH. eauto.
Qed.

Lemma reach_snapshot s i : reach s → dict_get i (munches s) = snapshot (trace s) i.
Proof.
  intros Hr. induction Hr as [|s1 s2 Hr Hst IH] using reach_induction.
  - done.
  - step_cases Hst; simpl; rewrite snapshot_snoc; simpl; try done.
    destruct (decide (j = i)) as [->|].
    + by rewrite dict_get_set_eq.
    + by rewrite dict_get_set_ne.
Qed.

Lemma reach_failed s : reach s → failed s = seen_failed (trace s).
Proof.
  intros Hr. induction Hr as [|s1 s2 Hr Hst IH] using reach_induction.
  - done.
  - step_cases Hst; simpl; rewrite seen_failed_snoc, <- IH; simpl;
      rewrite ?app_nil_r; try done.
    case_bool_decide; by rewrite ?app_nil_r.
Qed.

Lemma reach_watched_iff s i :
  reach s →
  i ∈ watched s ↔
  i ∈ watched init ∧ ∀ b, b ∈ omap (got i) (trace s) → ¬ terminal (state b).
Proof.
  intros Hr. induction Hr as [|s1 s2 Hr Hst IH] using reach_induction.
  - simpl. split; [|naive_solver]. intros ?; split; [done|].
    by intros b ?%elem_of_nil.
  - step_cases Hst; simpl; rewrite omap_app; csimpl; rewrite ?app_nil_r;
      try done.
    destruct (decide (j = i)) as [->|Hne].
    + case_bool_decide as Hterm.
      * rewrite elem_of_difference. split; [set_solver|].
        intros [_ Hall]. exfalso. apply (Hall b); [|done].
        apply elem_of_app. right. by apply list_elem_of_singleton.
      * rewrite IH. split; intros [Hin Hall]; split; try done.
        -- intros b' [Hb'|Hb']%elem_of_app; [auto|].
           by apply list_elem_of_singleton in Hb' as ->.
        -- intros b' Hb'. apply Hall, elem_of_app. by left.
    + rewrite app_nil_r. case_bool_decide; [|done].
      rewrite elem_of_difference, IH. set_solver.
Qed.

Lemma reach_event_ok s : reach s → each_event event_ok (trace s).
Proof.
  intros Hr. induction Hr as [|s1 s2 Hr Hst IH] using reach_induction.
  - simpl. intros h1 e h2 Heq. destruct h1; simplify_list_eq; [done|].
    by destruct h1.
  - pose proof (reach_snapshot s1) as Hsnap.
    pose proof (reach_watched_iff s1) as Hw.
    pose proof (reach_keys s1 Hr) as Hk.
    step_cases Hst; simpl; apply each_event_snoc; try done; simpl.
    + split; [done|]. rewrite <- (Hsnap j Hr). apply Hw in H1; [|done].
      destruct H1; split_and!; eauto.
    + split; [done|]. rewrite <- (Hsnap j Hr). apply Hw in H1; [|done].
      destruct H1; split_and!; eauto.
    + split; [by eexists|].
      rewrite dict_values_lookup.
      * rewrite Hk. apply list_fmap_ext. intros ? i _. by apply Hsnap.
      * rewrite Hk. apply init_keys_NoDup.
Qed.

(** ** The program takes steps *)

Lemma refresh_spec i s cur :
  dict_get i (munches s) = Some cur →
  i ∈ watched s →
  refresh i s =
    match resolve cur with
    | AttrProxy p =>
        match proxy_get W (trace s) p i with
        | inl e => (log (EvGet p i (inl e)) s, inl e)
        | inr b => (store p i b s,
                    if bool_decide (state b = "unknown") then inl unknown_exn
                    else inr tt)
        end
    | _ => (s, inl (Exn AttributeError ""))
    end.
Proof.
  intros Hcur Hin. unfold refresh, munches_lookup, resolve, call_get, getattr_proxy.
  run_M. rewrite Hcur. run_M.
  destruct (hasattr_proxy cur) eqn:Hhas; run_M.
  - destruct (__proxy__ cur) as [| |p] eqn:Hp; run_M; try done.
    destruct (proxy_get W (trace s) p i) as [e|b] eqn:Hg; run_M; [done|].
    unfold store, watched_remove, terminal.
    repeat case_bool_decide; run_M; try done;
      rewrite ?decide_True by done; done.
  - destruct (waitable_proxy waitable) as [| |p] eqn:Hp; run_M; try done.
    destruct (proxy_get W (trace s) p i) as [e|b] eqn:Hg; run_M; [done|].
    unfold store, watched_remove, terminal.
    repeat case_bool_decide; run_M; try done;
      rewrite ?decide_True by done; done.
Qed.

Lemma live_snoc h e : live h → fatal h e = None → live (h ++ [e]).
Proof. intros Hl Hf. by apply (each_event_snoc (λ h1 e1, fatal h1 e1 = None)). Qed.

Lemma refresh_sound i s s' r :
  reach s → live (trace s) → i ∈ watched s →
  refresh i s = (s', r) →
  match r with
  | inr _ =>
      ∃ p b, s' = store p i b s ∧ step s s' ∧ live (trace s')
  | inl x =>
      (∃ p r0, trace s' = trace s ++ [EvGet p i r0] ∧ step s s' ∧
               fatal (trace s) (EvGet p i r0) = Some x) ∨
      (s' = s ∧ x = Exn AttributeError "" ∧
       ∃ cur, dict_get i (munches s) = Some cur ∧ ∀ p, resolve cur ≠ AttrProxy p)
  end.
Proof.
  intros Hr Hl Hi. destruct (reach_watched_key s i Hr Hi) as [cur Hcur].
  pose proof (reach_nonempty s Hr) as Hne.
  rewrite (refresh_spec i s cur Hcur Hi).
  destruct (resolve cur) as [| |p] eqn:Hres.
  - intros [= <- <-]. right. split_and!; try done. exists cur. by rewrite Hres.
  - intros [= <- <-]. right. split_and!; try done. exists cur. by rewrite Hres.
  - destruct (proxy_get W (trace s) p i) as [x|b] eqn:Hget.
    + intros [= <- <-]. left. exists p, (inl x). split_and!; try done.
      by eapply step_get_raise.
    + case_bool_decide as Hu; intros [= <- <-].
      * left. exists p, (inr b). split_and!; try done.
        -- by eapply step_get_store.
        -- simpl. by rewrite bool_decide_true.
      * exists p, b. split_and!; try done.
        -- by eapply step_get_store.
        -- simpl. apply live_snoc; [done|]. simpl. by rewrite bool_decide_false.
Qed.

Lemma store_watched p i b s j :
  j ∈ watched s → j ≠ i → j ∈ watched (store p i b s).
Proof. intros. simpl. case_bool_decide; set_solver. Qed.

(** The [for] loop over the watched builds: the events it adds are
    fetches, of the builds of the list in that order, of all of them when
    the loop ends without an exception. *)
Lemma for_each_sound ids s s' r :
  reach s → live (trace s) → NoDup ids → (∀ i, i ∈ ids → i ∈ watched s) →
  for_each ids refresh s = (s', r) →
  rtc step s s' ∧
  ∃ gets, trace s' = trace s ++ gets ∧ Forall is_get gets ∧
    match r with
    | inr _ => live (trace s') ∧ omap get_id gets = ids
    | inl x => raised_by s' x ∧ omap get_id gets `prefix_of` ids ∧
               (live (trace s') → omap get_id gets ≠ ids)
    end.
Proof.
  revert s. induction ids as [|i ids IH]; intros s Hr Hl Hnd Hin; simpl; run_M.
  - intros [= <- <-]. split; [done|]. exists []. by rewrite app_nil_r.
  - apply NoDup_cons in Hnd as [Hi Hnd].
    destruct (refresh i s) as [s1 [x|[]]] eqn:Href;
      apply refresh_sound in Href; try done; try (apply Hin; left).
    + intros [= <- <-]. destruct Href as [(p & r0 & Htr & Hst & Hf)|(-> & -> & cur & Hcur & Hres)].
      * split; [by apply rtc_once|]. exists [EvGet p i r0]. split_and!; try done.
        -- by repeat constructor.
        -- left. eauto.
        -- by exists ids.
        -- intros Hl'. rewrite Htr in Hl'.
           apply each_event_snoc_inv in Hl' as [_ Hl']. congruence.
      * split; [done|]. exists []. rewrite app_nil_r. split_and!; try done.
        -- right. split_and!; try done. exists i, cur. split_and!; try done.
           apply Hin. left.
        -- apply prefix_nil.
    + destruct Href as (p & b & -> & Hst & Hl1). intros Hfor.
      apply IH in Hfor as (Hsteps & gets & Htr & Hgets & Hres); try done.
      * split; [by eapply rtc_l|]. exists (EvGet p i (inr b) :: gets).
        split_and!.
        -- rewrite Htr. simpl. by rewrite <- app_assoc.
        -- by constructor.
        -- destruct r as [x|[]]; simpl.
           ++ destruct Hres as (? & ? & Hneq). split_and!; try done.
              ** by apply prefix_cons.
              ** intros Hl' [=]. by apply Hneq.
           ++ destruct Hres as [? <-]. done.
      * eapply rtc_r; done.
      * intros j Hj. apply store_watched; [apply Hin; by right|].
        intros ->. done.
Qed.

Lemma logs_refl s : logs s s [].
Proof. unfold logs. by rewrite app_nil_r. Qed.

Lemma logs_trans s1 s2 s3 evs1 evs2 :
  logs s1 s2 evs1 → logs s2 s3 evs2 → logs s1 s3 (evs1 ++ evs2).
Proof.
  intros (Ht1 & Hm1 & Hw1 & Hf1) (Ht2 & Hm2 & Hw2 & Hf2). unfold logs.
  rewrite Ht2, Ht1, Hm2, Hm1, Hw2, Hw1, Hf2, Hf1. by rewrite <- app_assoc.
Qed.

Lemma set_iter_NoDup X : NoDup (set_iter X).
Proof. rewrite set_iter_perm. apply NoDup_elements. Qed.

Lemma elem_of_set_iter X i : i ∈ set_iter X ↔ i ∈ X.
Proof. rewrite set_iter_perm. apply elem_of_elements. Qed.

Lemma run_callback_sound s s' r :
  reach s → live (trace s) →
  run_callback s = (s', r) →
  rtc step s s' ∧ logs s s' (callback_events s) ∧
  match r with inl x => raised_by s' x | inr _ => live (trace s') end.
Proof.
  intros Hr Hl. pose proof (reach_nonempty s Hr) as Hne.
  unfold run_callback, callback_events.
  destruct callback as [cb|] eqn:Hcb; run_M.
  - assert (step s (log (EvCallback (dict_values (munches s))) s)) as Hst
      by by eapply step_callback.
    destruct (cb (trace s) (dict_values (munches s))) as [x|] eqn:Hx;
      intros [= <- <-]; (split; [by apply rtc_once|]); (split; [done|]).
    + left. eexists _, _. split; [done|]. simpl. by rewrite Hcb.
    + apply live_snoc; [done|]. simpl. by rewrite Hcb.
  - intros [= <- <-]. split; [done|]. split; [apply logs_refl|done].
Qed.

Lemma check_timeout_sound s s' r :
  reach s → live (trace s) → watched s ≠ ∅ →
  check_timeout terminate s = (s', r) →
  rtc step s s' ∧
  (∃ clk, logs s s' clk ∧ (clk = [] ∨ ∃ t, clk = [EvTime t]) ∧
          match r with
          | inl x => x = timeout_exn ∧ clk ≠ [] ∧ raised_by s' x
          | inr _ => live (trace s')
          end).
Proof.
  intros Hr Hl Hw. pose proof (reach_nonempty s Hr) as Hne.
  unfold check_timeout, time_now. destruct (decide (timeout = 0)) as [Hz|Hnz]; run_M.
  - intros [= <- <-]. split; [done|]. exists []. split; [apply logs_refl|]. eauto.
  - assert (step s (log (EvTime (time_time W (trace s))) s)) as Hst
      by by eapply step_clock.
    case_bool_decide as Hle; intros [= <- <-]; (split; [by apply rtc_once|]);
      exists [EvTime (time_time W (trace s))]; (split; [done|]); (split; [eauto|]).
    + split_and!; try done. left. eexists _, _. split; [done|]. simpl.
      by rewrite bool_decide_true.
    + apply live_snoc; [done|]. simpl. rewrite bool_decide_false; [done|].
      intros [_ ?]. done.
Qed.

Lemma time_sleep_sound s s' r :
  reach s → live (trace s) → watched s ≠ ∅ →
  time_sleep interval s = (s', r) →
  rtc step s s' ∧ logs s s' [EvSleep interval] ∧
  match r with inl x => raised_by s' x | inr _ => live (trace s') end.
Proof.
  intros Hr Hl Hw. pose proof (reach_nonempty s Hr) as Hne.
  unfold time_sleep. run_M.
  assert (step s (log (EvSleep interval) s)) as Hst by by eapply step_sleep.
  destruct (decide (interval < 0)); run_M; intros [= <- <-];
    (split; [by apply rtc_once|]); (split; [done|]).
  - left. eexists _, _. split; [done|]. simpl. by rewrite bool_decide_true.
  - apply live_snoc; [done|]. simpl. by rewrite bool_decide_false.
Qed.

(** One turn of the loop. *)
Lemma wait_round_sound s s' r :
  reach s → live (trace s) →
  wait_round terminate s = (s', r) →
  ∃ s1 gets rest,
    rtc step s s1 ∧ rtc step s1 s' ∧
    trace s1 = trace s ++ gets ∧ Forall is_get gets ∧
    omap get_id gets `prefix_of` set_iter (watched s) ∧
    logs s1 s' rest ∧
    round_end s' r ∧
    (((∃ x, r = inl x) ∧ rest = [] ∧
      (live (trace s1) → omap get_id gets ≠ set_iter (watched s)))
     ∨ (live (trace s1) ∧ omap get_id gets = set_iter (watched s) ∧
        ∃ tail, rest = callback_events s1 ++ tail ∧ round_tail tail)).
Proof.
  intros Hr Hl. unfold wait_round. run_M.
  destruct (for_each (set_iter (watched s)) refresh s) as [s1 [x|[]]] eqn:Hfor;
    apply for_each_sound in Hfor as (Hst1 & gets & Htr1 & Hgets & Hres);
    try done; try apply set_iter_NoDup; try (intros i; apply elem_of_set_iter).
  { intros [= <- <-]. destruct Hres as (Hx & Hpre & Hneq).
    exists s1, gets, []. split_and!; try done; [apply logs_refl|]. left. eauto. }
  destruct Hres as [Hl1 Hids].
  assert (reach s1) as Hr1 by by eapply rtc_trans.
  assert (omap get_id gets `prefix_of` set_iter (watched s)) as Hpre by by rewrite Hids.
  destruct (run_callback s1) as [s2 [x|[]]] eqn:Hcb;
    apply run_callback_sound in Hcb as (Hst2 & Hlog2 & Hres2); try done.
  { intros [= <- <-]. exists s1, gets, (callback_events s1).
    split_and!; try done. right. split_and!; try done.
    exists []. rewrite app_nil_r. split; [done|]. exists [], []. eauto. }
  assert (reach s2) as Hr2 by by eapply rtc_trans.
  destruct (decide (watched s2 = ∅)) as [He|Hne]; run_M.
  { intros [= <- <-]. exists s1, gets, (callback_events s1).
    split_and!; try done. right. split_and!; try done.
    exists []. rewrite app_nil_r. split; [done|]. exists [], []. eauto. }
  destruct (check_timeout terminate s2) as [s3 [x|[]]] eqn:Hck;
    apply check_timeout_sound in Hck as (Hst3 & clk & Hlog3 & Hclk & Hres3);
    try done.
  { intros [= <- <-]. destruct Hres3 as (-> & Hne3 & Hraised).
    exists s1, gets, (callback_events s1 ++ clk).
    split_and!; try done.
    - by eapply rtc_trans.
    - by eapply logs_trans.
    - right. split_and!; try done. exists clk. split; [done|].
      exists clk, []. rewrite app_nil_r. eauto. }
  assert (reach s3) as Hr3 by by eapply rtc_trans.
  assert (watched s3 ≠ ∅) as Hne3 by (destruct Hlog3 as (_ & _ & -> & _); done).
  destruct (time_sleep interval s3) as [s4 [x|[]]] eqn:Hsl;
    apply time_sleep_sound in Hsl as (Hst4 & Hlog4 & Hres4); try done;
    intros [= <- <-]; exists s1, gets, (callback_events s1 ++ clk ++ [EvSleep interval]).
  - split_and!; try done.
    + etrans; [exact Hst2|]. etrans; [exact Hst3|exact Hst4].
    + eapply logs_trans; [done|]. by eapply logs_trans.
    + right. split_and!; try done. eexists. split; [done|].
      exists clk, [EvSleep interval]. eauto.
  - split_and!; try done.
    + etrans; [exact Hst2|]. etrans; [exact Hst3|exact Hst4].
    + eapply logs_trans; [done|]. by eapply logs_trans.
    + simpl. split_and!; try done.
      * destruct Hlog4 as (_ & _ & -> & _). done.
      * destruct Hlog4 as (-> & _). eauto.
    + right. split_and!; try done. eexists. split; [done|].
      exists clk, [EvSleep interval]. eauto.
Qed.

(** ** The whole loop *)

Lemma live_entered : live (trace entered).
Proof.
  intros h1 e h2 Heq. simpl in Heq. destruct h1; simplify_list_eq.
  - done.
  - by destruct h1.
Qed.

Lemma wait_entered fuel :
  wait fuel = (let '(s, r) := wait_loop fuel terminate entered in (s, to_outcome r)).
Proof. done. Qed.

Lemma wait_loop_sound fuel s s' r :
  reach s → live (trace s) →
  wait_loop fuel terminate s = (s', r) →
  rtc step s s' ∧ explained s' (to_outcome r).
Proof.
  revert s. induction fuel as [|fuel IH]; intros s Hr Hl; simpl; run_M.
  - intros [= <- <-]. done.
  - destruct (wait_round terminate s) as [s1 r1] eqn:Hround.
    apply wait_round_sound in Hround
      as (s0 & gets & rest & Hst0 & Hst1 & _ & _ & _ & _ & Hend & _); try done.
    assert (rtc step s s1) as Hst by by etrans.
    destruct r1 as [x|[l|]]; simpl in Hend.
    + intros [= <- <-]. done.
    + intros [= <- <-]. done.
    + destruct Hend as (Hl1 & _ & _). intros Hloop.
      apply IH in Hloop as [Hst' Hex]; try done.
      * split; [by etrans|done].
      * unfold reach. by etrans.
Qed.

(** Every session [wait] ends in, or is cut off in, is reached by steps,
    and how it ended can be read off its trace. *)
Lemma wait_sound fuel s o : wait fuel = (s, o) → reach s ∧ explained s o.
Proof.
  rewrite wait_entered.
  destruct (wait_loop fuel terminate entered) as [s' r] eqn:Hloop.
  intros [= <- <-].
  apply wait_loop_sound in Hloop as [Hst Hex]; [done|apply rtc_refl|apply live_entered].
Qed.

Lemma wait_loop_more k n t s0 s :
  wait_loop k t s0 = (s, inr None) →
  wait_loop (k + n) t s0 = wait_loop n t s.
Proof.
  revert s0. induction k as [|k IH]; intros s0; simpl; run_M.
  - by intros [= <-].
  - destruct (wait_round t s0) as [s1 [x|[l|]]]; try done. apply IH.
Qed.

Lemma wait_loop_done k n t s0 s r :
  wait_loop k t s0 = (s, r) → r ≠ inr None →
  wait_loop (k + n) t s0 = (s, r).
Proof.
  revert s0. induction k as [|k IH]; intros s0; simpl; run_M.
  - by intros [= <- <-].
  - destruct (wait_round t s0) as [s1 [x|[l|]]]; try done. apply IH.
Qed.

(** [wait k = (s, Running)]: [s] is the session after [k] whole turns of
    the loop, and the loop goes on from there. *)
Lemma wait_running k n s :
  wait k = (s, Running) →
  wait (k + n) = (let '(s', r) := wait_loop n terminate s in (s', to_outcome r)).
Proof.
  rewrite !wait_entered.
  destruct (wait_loop k terminate entered) as [s' [x|[l|]]] eqn:Hk; try done.
  intros [= <-]. by rewrite (wait_loop_more _ _ _ _ _ Hk).
Qed.

(** More fuel does not change an outcome that was reached. *)
Lemma wait_mono k n s o :
  wait k = (s, o) → o ≠ Running → wait (k + n) = (s, o).
Proof.
  rewrite !wait_entered.
  destruct (wait_loop k terminate entered) as [s' r] eqn:Hk.
  intros [= <- <-] Ho. rewrite (wait_loop_done _ n _ _ _ _ Hk); [done|].
  intros ->. done.
Qed.

Lemma wait_running_live k s : wait k = (s, Running) → reach s ∧ live (trace s).
Proof. intros H. by apply wait_sound in H. Qed.

Lemma wait_next k s s' o' :
  wait k = (s, Running) → wait (S k) = (s', o') →
  reach s ∧ live (trace s) ∧
  ∃ r, wait_round terminate s = (s', r) ∧ o' = to_outcome r.
Proof.
  intros Hk HSk. destruct (wait_running_live k s Hk) as [Hr Hl].
  split_and!; try done.
  pose proof (wait_running k 1 s Hk) as H1. rewrite Nat.add_1_r, HSk in H1.
  simpl in H1. revert H1. run_M.
  destruct (wait_round terminate s) as [s1 [x|[l|]]]; intros [= -> ->]; eauto.
Qed.

Lemma wait_steps k n : rtc step (wait k).1 (wait (k + n)).1.
Proof.
  destruct (wait k) as [s o] eqn:Hk. simpl.
  destruct (decide (o = Running)) as [->|Hne].
  - rewrite (wait_running k n s Hk).
    destruct (wait_loop n terminate s) as [s' r] eqn:Hloop. simpl.
    apply wait_running_live in Hk as [Hr Hl].
    by apply wait_loop_sound in Hloop as [? _].
  - by rewrite (wait_mono k n s o Hk Hne).
Qed.

Lemma dict_get_values {V} k (v : V) d : dict_get k d = Some v → v ∈ dict_values d.
Proof.
  unfold dict_values. induction d as [|[k' v'] d IH]; csimpl; [done|].
  destruct (decide (k' = k)).
  - intros [= ->]. left.
  - intros H. right. auto.
Qed.

Lemma got_get_id i e b : got i e = Some b → get_id e = Some i.
Proof.
  destruct e as [|p j [|b']| |]; simpl; try done.
  destruct (decide (j = i)) as [->|]; done.
Qed.

Lemma omap_got_nil i h : (∀ e, e ∈ h → get_id e ≠ Some i) → omap (got i) h = [].
Proof.
  induction h as [|e h IH]; intros Hall; csimpl; [done|].
  destruct (got i e) as [b|] eqn:Hg.
  - apply got_get_id in Hg. exfalso. apply (Hall e); [left|done].
  - apply IH. intros e' He'. apply Hall. by right.
Qed.

(** A build seen in a terminal state is not fetched again. *)
Lemma reach_terminal_final s h p i b h2 :
  reach s → trace s = h ++ EvGet p i (inr b) :: h2 → terminal (state b) →
  ∀ e, e ∈ h2 → get_id e ≠ Some i.
Proof.
  intros Hr Htr Hterm e (h3 & h4 & ->)%list_elem_of_split Hid.
  destruct e as [|p' j r'| |]; try done. injection Hid as ->.
  rewrite app_comm_cons, app_assoc in Htr.
  destruct (reach_event_ok s Hr _ _ _ Htr) as (_ & _ & _ & Hnot).
  apply (Hnot b); [|done]. rewrite omap_app. apply elem_of_app. right. csimpl.
  rewrite decide_True by done. left.
Qed.

Lemma init_munches_builds i cur :
  dict_get i (munches init) = Some cur → cur ∈ builds ∧ id cur = i.
Proof.
  unfold init, dict_of; simpl. intros [Hin|Hget]%dict_of_get; [|done].
  apply list_elem_of_fmap in Hin as (b & [= -> ->] & Hb). done.
Qed.

Lemma init_munches_NoDup :
  NoDup (id <$> builds) → munches init = (λ b, (id b, b)) <$> builds.
Proof.
  intros Hnd. unfold init; simpl. apply dict_of_NoDup.
  rewrite <- list_fmap_compose. done.
Qed.

Lemma init_keys_ids : NoDup (id <$> builds) → dict_keys (munches init) = id <$> builds.
Proof.
  intros Hnd. rewrite init_munches_NoDup by done. unfold dict_keys.
  by rewrite <- list_fmap_compose.
Qed.

Lemma init_size : size (watched init) = length (dict_keys (munches init)).
Proof.
  rewrite <- (size_list_to_set (C := gset Z)) by apply init_keys_NoDup.
  f_equal. apply set_eq. intros i. rewrite elem_of_list_to_set. symmetry.
  apply init_keys.
Qed.

(** The values of [munches] are the latest Munches of its keys. *)
Lemma reach_values s :
  reach s →
  Some <$> dict_values (munches s) = snapshot (trace s) <$> dict_keys (munches init).
Proof.
  intros Hr. pose proof (reach_keys s Hr) as Hk. rewrite dict_values_lookup.
  - rewrite Hk. apply list_fmap_ext. intros ? i _. by apply reach_snapshot.
  - rewrite Hk. apply init_keys_NoDup.
Qed.

Lemma reach_values_length s :
  reach s → length (dict_values (munches s)) = size (watched init).
Proof.
  intros Hr. by rewrite dict_values_length, reach_keys, init_size.
Qed.

(** A fatal event is the last one, and decides the outcome. *)
Lemma fatal_event_outcome fuel s o h e h2 x :
  wait fuel = (s, o) → trace s = h ++ e :: h2 → fatal h e = Some x →
  h2 = [] ∧ o = Raised x.
Proof.
  intros [Hr Hex]%wait_sound Htr Hf.
  pose proof (reach_fatal_last _ _ _ _ _ Hr Htr Hf) as ->.
  assert (¬ live (trace s)) as Hdead.
  { intros Hl. specialize (Hl _ _ _ Htr). cbv beta in Hl. by rewrite Hf in Hl. }
  split; [done|].
  destruct o as [l|y|]; simpl in Hex.
  - by destruct Hex as [? _].
  - destruct Hex as [(h' & e' & Htr' & Hf')|[Hl _]]; [|done].
    rewrite Htr in Htr'. apply app_inj_tail in Htr' as [<- <-]. congruence.
  - done.
Qed.

(** Where the turns of the loop begin: on entry, and after a sleep. *)
Lemma wait_running_start k s :
  wait k = (s, Running) → s = entered ∨ ∃ h, trace s = h ++ [EvSleep interval].
Proof.
  destruct k as [|k]; [intros [= <-]; by left|].
  intros HSk. destruct (wait k) as [s0 o0] eqn:Hk.
  destruct (decide (o0 = Running)) as [->|Hne].
  - destruct (wait_next k s0 s Running Hk HSk) as (Hr & Hl & r & Hround & Ho).
    destruct r as [x|[l|]]; try done.
    apply wait_round_sound in Hround
      as (_ & _ & _ & _ & _ & _ & _ & _ & _ & Hend & _); try done.
    right. by destruct Hend as (_ & _ & ?).
  - pose proof (wait_mono k 1 s0 o0 Hk Hne) as H1.
    rewrite Nat.add_1_r, HSk in H1. by injection H1 as -> <-.
Qed.

(** An outcome other than [Running] was reached in some turn. *)
Lemma wait_last_round fuel s o :
  wait fuel = (s, o) → o ≠ Running →
  ∃ k s0, wait k = (s0, Running) ∧ wait (S k) = (s, o).
Proof.
  induction fuel as [|fuel IH]; [by intros [= <- <-]|].
  intros HS Ho. destruct (wait fuel) as [s0 o0] eqn:Hk.
  destruct (decide (o0 = Running)) as [->|Hne]; [eauto|].
  pose proof (wait_mono fuel 1 s0 o0 Hk Hne) as H1.
  rewrite Nat.add_1_r, HS in H1. injection H1 as <- <-. by apply IH.
Qed.

Lemma reach_clock_event s h t :
  reach s → trace s = h ++ [EvTime t] → h ≠ [] →
  timeout ≠ 0 ∧ watched s ≠ ∅.
Proof.
  intros [<-|(s1 & _ & Hst)]%rtc_inv_r Htr Hne.
  - simpl in Htr. destruct h; [done|]. by destruct h.
  - step_cases Hst; simpl in Htr; apply app_inj_tail in Htr as [_ ?]; done.
Qed.

(** A reading of the clock that ends a turn comes right after the
    events of the callback. *)
Lemma clock_follows_callback k s0 s o h t :
  wait k = (s0, Running) → wait (S k) = (s, o) →
  trace s = h ++ [EvTime t] → h ≠ [] →
  ∃ h', h = h' ++ callback_events s.
Proof.
  intros Hk HSk Htr Hne.
  destruct (wait_next k s0 s o Hk HSk) as (Hr & Hl & r & Hround & ->).
  apply wait_round_sound in Hround
    as (s1 & gets & rest & _ & _ & Htr1 & Hgets & _ & Hlog & _ & Hcase);
    try done.
  destruct Hlog as (Htr2 & Hm2 & _ & _).
  assert (callback_events s = callback_events s1) as Hcbs
    by (unfold callback_events; by rewrite Hm2).
  assert (trace s ≠ trace s0 ++ gets) as Hnot.
  { rewrite Htr. destruct gets as [|g gets _] using rev_ind.
    - rewrite app_nil_r.
      destruct (wait_running_start k s0 Hk) as [->|[h0 ->]].
      + simpl. intros Heq. destruct h; [done|]. by destruct h.
      + by intros [_ ?]%app_inj_tail.
    - rewrite app_assoc. intros [_ <-]%app_inj_tail.
      apply Forall_app in Hgets as [_ Hg]. by inv Hg. }
  rewrite Htr2, Htr1 in Htr, Hnot. rewrite Hcbs.
  destruct Hcase as [(_ & -> & _)|(_ & _ & tail & -> & clk & slp & -> & Hclk & Hslp)].
  { by rewrite app_nil_r in Hnot. }
  destruct Hslp as [->| ->].
  - rewrite app_nil_r in *. destruct Hclk as [->|[t' ->]].
    + rewrite app_nil_r in *. unfold callback_events in *.
      destruct callback; [|by rewrite app_nil_r in Hnot].
      by apply app_inj_tail in Htr as [_ ?].
    + rewrite !app_assoc in Htr. apply app_inj_tail in Htr as [<- _].
      by eexists.
  - rewrite !app_assoc in Htr. by apply app_inj_tail in Htr as [_ ?].
Qed.

Lemma reach_sleep_event s h sec :
  reach s → trace s = h ++ [EvSleep sec] → watched s ≠ ∅.
Proof.
  intros [<-|(s1 & _ & Hst)]%rtc_inv_r Htr.
  - simpl in Htr. destruct h; [done|]. by destruct h.
  - step_cases Hst; simpl in Htr; apply app_inj_tail in Htr as [_ ?]; done.
Qed.

(** A session that has been through a turn of the loop, with no build
    left to watch and no fatal event, has returned. *)
Lemma emptied_returns fuel s o :
  wait fuel = (s, o) → fuel ≠ O → watched s = ∅ → live (trace s) →
  o = Returned (dict_values (munches s)).
Proof.
  intros Hw Hfuel He Hl. pose proof Hw as [Hr Hex]%wait_sound.
  destruct o as [l|x|]; simpl in Hex.
  - by destruct Hex as (_ & _ & ->).
  - destruct Hex as [(h & e & Htr & Hf)|(_ & _ & i & _ & Hi & _)].
    + specialize (Hl h e [] Htr). cbv beta in Hl. by rewrite Hf in Hl.
    + set_solver.
  - destruct fuel as [|fuel]; [done|]. destruct (wait fuel) as [s0 o0] eqn:Hk.
    destruct (decide (o0 = Running)) as [->|Hne].
    + destruct (wait_next fuel s0 s Running Hk Hw) as (Hr0 & Hl0 & r & Hround & Ho).
      destruct r as [x|[l|]]; try done.
      apply wait_round_sound in Hround
        as (_ & _ & _ & _ & _ & _ & _ & _ & _ & Hend & _); try done.
      by destruct Hend as (_ & ? & _).
    + pose proof (wait_mono fuel 1 s0 o0 Hk Hne) as H1.
      rewrite Nat.add_1_r, Hw in H1. by injection H1 as -> <-.
Qed.

(** The list [wait] returns: for each id it was given, in the order
    given, the last Munch fetched for it, which is in a terminal state. *)
Lemma returned_final_munches fuel s l :
  wait fuel = (s, Returned l) →
  Some <$> l = (λ i, last (omap (got i) (trace s))) <$> dict_keys (munches init) ∧
  Forall (λ m, terminal (state m)) l ∧
  (NoDup (id <$> builds) →
     length l = length builds ∧
     Some <$> l = (λ b, last (omap (got (id b)) (trace s))) <$> builds).
Proof.
  intros (Hr & _ & Hempty & ->)%wait_sound.
  assert (∀ i, i ∈ watched init →
            ∃ m, last (omap (got i) (trace s)) = Some m ∧
                 snapshot (trace s) i = Some m ∧ terminal (state m)) as Hlast.
  { intros i Hi0.
    assert (Exists (λ m, terminal (state m)) (omap (got i) (trace s))) as Hex.
    { destruct (decide (Exists (λ m, terminal (state m))
                                (omap (got i) (trace s)))) as [|Hnex]; [done|].
      apply not_Exists_Forall in Hnex; [|apply _].
      assert (i ∈ watched s); [|set_solver].
      apply reach_watched_iff; [done|]. split; [done|].
      intros m' Hm'. rewrite Forall_forall in Hnex. by apply Hnex. }
    apply Exists_exists in Hex as (m' & Hin & Hterm).
    apply list_elem_of_omap in Hin as (e & (h1 & h2 & Htr)%list_elem_of_split & Hgot).
    destruct e as [|p j [|b']| |]; simpl in Hgot; try done.
    destruct (decide (j = i)) as [->|]; [|done]. injection Hgot as ->.
    pose proof (reach_terminal_final s h1 p i m' h2 Hr Htr Hterm) as Hlater.
    assert (last (omap (got i) (trace s)) = Some m') as Hl.
    { rewrite Htr, omap_app. csimpl. rewrite decide_True by done.
      rewrite (omap_got_nil _ h2 Hlater). by rewrite last_snoc. }
    exists m'. split_and!; try done. unfold snapshot. by rewrite Hl. }
  assert (Some <$> dict_values (munches s)
          = (λ i, last (omap (got i) (trace s))) <$> dict_keys (munches init))
    as Hvals.
  { rewrite reach_values by done.
    apply list_fmap_ext. intros n i Hi. simpl.
    destruct (Hlast i) as (m' & -> & -> & _); [|done].
    apply init_keys. by eapply list_elem_of_lookup_2. }
  split_and!.
  - done.
  - apply Forall_forall. intros m' Hm'.
    assert (Some m' ∈ Some <$> dict_values (munches s)) as Hin
      by (apply list_elem_of_fmap; eauto).
    rewrite Hvals in Hin. apply list_elem_of_fmap in Hin as (i & Heq & Hi).
    apply init_keys in Hi. destruct (Hlast i Hi) as (m'' & Hl'' & _ & Hterm).
    congruence.
  - intros Hnd. split.
    + by rewrite dict_values_length, reach_keys, init_keys_ids, length_fmap.
    + rewrite Hvals, init_keys_ids by done. by rewrite <- list_fmap_compose.
Qed.

(** When every build given has been fetched in a terminal state, and the
    callback has not raised, [wait] has returned. *)
Lemma all_terminal_returned fuel s o :
  (∀ cb h arg, callback = Some cb → cb h arg = None) →
  wait fuel = (s, o) → builds ≠ [] →
  (∀ b, b ∈ builds →
        ∃ p m, EvGet p (id b) (inr m) ∈ trace s ∧ terminal (state m)) →
  o = Returned (dict_values (munches s)).
Proof.
  intros Hcb Hw Hne Hall. pose proof Hw as [Hr _]%wait_sound.
  assert (∀ i, i ∈ watched init →
            ∃ m, m ∈ omap (got i) (trace s) ∧ terminal (state m)) as Hseen.
  { intros i Hi. simpl in Hi.
    apply elem_of_list_to_set, list_elem_of_fmap in Hi as (b & -> & Hb).
    destruct (Hall b Hb) as (p & m & Hin & Hterm). exists m. split; [|done].
    apply list_elem_of_omap. eexists. split; [done|]. simpl.
    by rewrite decide_True. }
  assert (watched s = ∅) as Hempty.
  { apply set_eq. intros i. split; [|set_solver]. intros Hi.
    apply (reach_watched_iff s i Hr) in Hi as [Hi0 Hno].
    destruct (Hseen i Hi0) as (m & Hm & Hterm). by destruct (Hno m). }
  apply (emptied_returns fuel); try done.
  - intros ->. injection Hw as <- _. destruct builds as [|b bs] eqn:Hb; [done|].
    destruct (Hall b) as (p & m & Hin & _); [left|].
    simpl in Hin. apply list_elem_of_singleton in Hin. done.
  - intros h1 e h2 Htr. destruct (fatal h1 e) as [x|] eqn:Hf; [|done]. exfalso.
    pose proof (reach_fatal_last s h1 e h2 x Hr Htr Hf) as ->.
    pose proof (reach_event_ok s Hr h1 e [] Htr) as Hok.
    destruct e as [t|p i r|arg|sec]; simpl in Hf, Hok.
    + case_bool_decide as Hc; [|done]. destruct Hc as [Hh _].
      by destruct (reach_clock_event s h1 t Hr Htr Hh).
    + destruct Hok as (_ & Hi0 & _ & Hno).
      destruct (Hseen i Hi0) as (m & Hm & Hterm).
      rewrite Htr, omap_app in Hm. apply elem_of_app in Hm as [Hm|Hm].
      * by destruct (Hno m).
      * destruct r as [y|b]; csimpl in Hm; [by apply elem_of_nil in Hm|].
        rewrite decide_True in Hm by done.
        apply list_elem_of_singleton in Hm as ->.
        case_bool_decide as Hu; [|done]. unfold terminal in Hterm.
        rewrite Hu in Hterm. set_solver.
    + destruct callback as [cb|] eqn:Hc; [|done].
      by rewrite (Hcb cb h1 arg) in Hf.
    + by destruct (reach_sleep_event s h1 sec Hr Htr).
Qed.

(** ** When every build ends *)

Section answering.
Hypothesis fetch_ok : ∀ s i cur p,
  reach s → live (trace s) → i ∈ watched s →
  dict_get i (munches s) = Some cur → resolve cur = AttrProxy p →
  ∃ b, proxy_get W (trace s) p i = inr b ∧ state b ≠ "unknown" ∧
       ∃ q, resolve b = AttrProxy q.
Hypothesis builds_proxy : ∀ b, b ∈ builds → ∃ q, resolve b = AttrProxy q.
Hypothesis callback_ok : ∀ cb h arg, callback = Some cb → cb h arg = None.

(** Every Munch of the session has a proxy to be fetched through. *)
Lemma munches_proxy s i c :
  reach s → dict_get i (munches s) = Some c → ∃ q, resolve c = AttrProxy q.
Proof.
  intros Hr. revert i c.
  induction Hr as [|s1 s2 Hr Hst IH] using reach_induction; intros i c Hget.
  - simpl in Hget. apply builds_proxy. by apply init_munches_builds in Hget as [? _].
  - step_cases Hst; simpl in Hget; try (by eapply IH).
    destruct (decide (j = i)) as [->|Hne].
    + rewrite dict_get_set_eq in Hget. injection Hget as <-.
      destruct (fetch_ok s i cur p) as (b' & Hb & _ & Hq); try done.
      assert (b' = b) as -> by congruence. done.
    + rewrite dict_get_set_ne in Hget by done. by eapply IH.
Qed.

(** What is left to raise: the deadline and [time.sleep]. *)
Lemma raised_cases s' y :
  reach s' → raised_by s' y →
  (∃ h t, h ≠ [] ∧ trace s' = h ++ [EvTime t] ∧ t = time_time W h ∧
          terminate ≤ t ∧ y = timeout_exn) ∨
  (∃ h, trace s' = h ++ [EvSleep interval] ∧ interval < 0 ∧
        y = Exn ValueError "sleep length must be non-negative").
Proof.
  intros Hr [(h & e & Htr & Hf)|(_ & _ & i & c & Hi & Hc & Hres)].
  - pose proof Hr as [<-|(s0 & Hr0 & Hst)]%rtc_inv_r.
    + simpl in Htr. apply (app_inj_tail []) in Htr as [<- <-].
      unfold fatal in Hf. case_bool_decide as Hc; [by destruct Hc|done].
    + step_cases Hst; simpl in Htr; apply app_inj_tail in Htr as [<- <-];
        simpl in Hf.
      * case_bool_decide as Hc; [|done]. destruct Hc as [Hne Hle].
        injection Hf as <-. left. by exists (trace s), (time_time W (trace s)).
      * destruct (fetch_ok s j cur p) as (b' & Hb & _); try done. congruence.
      * destruct (fetch_ok s j cur p) as (b' & Hb & Hu & _); try done.
        assert (b' = b) as -> by congruence.
        by rewrite bool_decide_false in Hf.
      * destruct callback as [cb'|] eqn:Hcb; [|done].
        by rewrite (callback_ok cb' (trace s) _ eq_refl) in Hf.
      * case_bool_decide; [|done]. injection Hf as <-. right. by exists (trace s).
  - destruct (munches_proxy s' i c Hr Hc) as [q Hq]. by destruct (Hres q).
Qed.
End answering.

(** Builds with a capability each are fetched through it for the whole
    session. *)
Lemma given_capability s i c p :
  (∀ b, b ∈ builds → ∃ q, capability b q) →
  reach s → dict_get i (munches s) = Some c → resolve c = AttrProxy p →
  ∃ b0, b0 ∈ builds ∧ id b0 = i ∧ capability b0 p.
Proof.
  intros Hcap Hr. revert i c p.
  induction Hr as [|s1 s2 Hr Hst IH] using reach_induction; intros i c q Hget Hres.
  - simpl in Hget. apply init_munches_builds in Hget as [Hin Hid].
    destruct (Hcap c Hin) as (q' & Hc). exists c. split_and!; try done.
    destruct Hc as [Hres' ?]. by assert (q' = q) as <- by congruence.
  - step_cases Hst; simpl in Hget; try (by eapply IH).
    destruct (decide (j = i)) as [->|Hne].
    + rewrite dict_get_set_eq in Hget. injection Hget as <-.
      destruct (IH i cur p) as (b0 & Hin & Hid & Hc); try done.
      pose proof Hc as [_ Hans].
      destruct (Hans (trace s)) as (b' & Hb & _ & Hres').
      rewrite Hid in Hb. assert (b' = b) as -> by congruence.
      assert (p = q) as <- by congruence.
      by exists b0.
    + rewrite dict_get_set_ne in Hget by done. by eapply IH.
Qed.

Lemma capability_fetch s i c p :
  (∀ b, b ∈ builds → ∃ q, capability b q) →
  reach s → dict_get i (munches s) = Some c → resolve c = AttrProxy p →
  ∃ b0 b, b0 ∈ builds ∧ id b0 = i ∧ capability b0 p ∧
          proxy_get W (trace s) p i = inr b ∧ state b ≠ "unknown" ∧
          resolve b = AttrProxy p.
Proof.
  intros Hcap Hr Hget Hres.
  destruct (given_capability s i c p Hcap Hr Hget Hres) as (b0 & Hin & Hid & Hc).
  pose proof Hc as [_ Hans]. destruct (Hans (trace s)) as (b & Hb & Hu & Hres').
  rewrite Hid in Hb. by exists b0, b.
Qed.

Lemma capability_proxy :
  (∀ b, b ∈ builds → ∃ q, capability b q) →
  ∀ b, b ∈ builds → ∃ q, resolve b = AttrProxy q.
Proof. intros Hcap b Hb. destruct (Hcap b Hb) as (q & Hq & _). eauto. Qed.

(** With a capability for every build and a callback that does not
    raise, [wait] raises nothing but the deadline and [time.sleep]. *)
Lemma capability_raised s x :
  (∀ b, b ∈ builds → ∃ q, capability b q) →
  (∀ cb h arg, callback = Some cb → cb h arg = None) →
  reach s → raised_by s x →
  (∃ h t, h ≠ [] ∧ trace s = h ++ [EvTime t] ∧ t = time_time W h ∧
          terminate ≤ t ∧ x = timeout_exn) ∨
  (∃ h, trace s = h ++ [EvSleep interval] ∧ interval < 0 ∧
        x = Exn ValueError "sleep length must be non-negative").
Proof.
  intros Hcap Hcb. apply raised_cases; [|by apply capability_proxy|done].
  intros s0 i c p Hr _ _ Hget Hres.
  destruct (capability_fetch s0 i c p Hcap Hr Hget Hres)
    as (_ & b & _ & _ & _ & Hb & Hu & Hres').
  exists b. eauto.
Qed.

Section termination.
Variable N : nat.
Hypothesis fetch_ok : ∀ s i cur p,
  reach s → live (trace s) → i ∈ watched s →
  dict_get i (munches s) = Some cur → resolve cur = AttrProxy p →
  ∃ b, proxy_get W (trace s) p i = inr b ∧ state b ≠ "unknown" ∧
       (∃ q, resolve b = AttrProxy q) ∧
       ((N ≤ S (count_gets i (trace s)))%nat → terminal (state b)).
Hypothesis builds_proxy : ∀ b, b ∈ builds → ∃ q, resolve b = AttrProxy q.
Hypothesis callback_ok : ∀ cb h arg, callback = Some cb → cb h arg = None.
Hypothesis in_time :
  timeout = 0 ∨ ∀ h, h ≠ [] → time_time W h < time_time W [] + timeout.
Hypothesis interval_ok : 0 ≤ interval.

Lemma count_gets_snoc i h e :
  count_gets i (h ++ [e]) =
    (count_gets i h + if decide (get_id e = Some i) then 1 else 0)%nat.
Proof.
  unfold count_gets. rewrite filter_app, length_app. f_equal.
  rewrite filter_cons, filter_nil. by case_decide.
Qed.

Lemma count_gets_app_other i h evs :
  omap get_id evs = [] → count_gets i (h ++ evs) = count_gets i h.
Proof.
  intros Hno. unfold count_gets. rewrite filter_app, length_app.
  replace (filter _ evs) with ([] : list event); [simpl; lia|].
  symmetry. induction evs as [|e evs IH]; [done|]. csimpl in Hno.
  destruct (get_id e) as [j|] eqn:Hj; [done|].
  rewrite filter_cons. rewrite decide_False by congruence. auto.
Qed.

Lemma fetch_answers s i cur p :
  reach s → live (trace s) → i ∈ watched s →
  dict_get i (munches s) = Some cur → resolve cur = AttrProxy p →
  ∃ b, proxy_get W (trace s) p i = inr b ∧ state b ≠ "unknown" ∧
       ∃ q, resolve b = AttrProxy q.
Proof.
  intros Hr Hl Hi Hget Hres.
  destruct (fetch_ok s i cur p Hr Hl Hi Hget Hres) as (b & ? & ? & ? & _). eauto.
Qed.

Lemma refresh_ok i s :
  reach s → live (trace s) → i ∈ watched s →
  ∃ p b, refresh i s = (store p i b s, inr tt) ∧
         ((N ≤ S (count_gets i (trace s)))%nat → terminal (state b)).
Proof.
  intros Hr Hl Hi. destruct (reach_watched_key s i Hr Hi) as [cur Hcur].
  rewrite (refresh_spec i s cur Hcur Hi).
  destruct (munches_proxy fetch_answers builds_proxy s i cur Hr Hcur) as [q Hq].
  rewrite Hq.
  destruct (fetch_ok s i cur q Hr Hl Hi Hcur Hq) as (b & -> & Hu & _ & Hterm).
  exists q, b. by rewrite bool_decide_false.
Qed.

(** The [for] loop fetches every build of the list, once. *)
Lemma for_each_ok ids s :
  reach s → live (trace s) → NoDup ids → (∀ i, i ∈ ids → i ∈ watched s) →
  ∃ s', for_each ids refresh s = (s', inr tt) ∧
    (∀ i, count_gets i (trace s') =
          (count_gets i (trace s) + if decide (i ∈ ids) then 1 else 0)%nat) ∧
    (∀ i, i ∈ ids → (N ≤ S (count_gets i (trace s)))%nat → i ∉ watched s').
Proof.
  revert s. induction ids as [|i ids IH]; intros s Hr Hl Hnd Hin; simpl; run_M.
  - exists s. split_and!; try done. by intros i ?%elem_of_nil.
  - apply NoDup_cons in Hnd as [Hi Hnd].
    assert (i ∈ watched s) as Hiw by (apply Hin; left).
    destruct (refresh_ok i s Hr Hl Hiw) as (p & b & Href & Hterm).
    pose proof Href as Hsound. apply refresh_sound in Hsound; try done.
    destruct Hsound as (_ & _ & _ & Hst & Hl1).
    rewrite Href.
    set (s1 := store p i b s) in *.
    assert (reach s1) as Hr1 by by eapply rtc_r.
    destruct (IH s1 Hr1 Hl1 Hnd) as (s' & Hfor & Hcount & Hgone).
    { intros j Hj. apply store_watched; [apply Hin; by right|]. by intros ->. }
    exists s'. split_and!; try done.
    + intros j. rewrite Hcount. unfold s1 at 1. simpl. rewrite count_gets_snoc. simpl.
      destruct (decide (j = i)) as [->|Hne].
      * rewrite (decide_True (P := Some i = Some i)) by done.
        rewrite (decide_False (P := i ∈ ids)) by done.
        rewrite (decide_True (P := i ∈ i :: ids)) by left. lia.
      * rewrite (decide_False (P := Some i = Some j)) by congruence.
        destruct (decide (j ∈ ids)).
        -- rewrite (decide_True (P := j ∈ i :: ids)) by by right. lia.
        -- rewrite (decide_False (P := j ∈ i :: ids)); [lia|].
           by intros [?|?]%elem_of_cons.
    + intros j [->|Hj]%elem_of_cons Hle.
      * intros Hjw. assert (i ∈ watched s1) as Hbad.
        { assert (rtc step s1 s') as Hsteps.
          { apply for_each_sound in Hfor as [? _]; try done.
            intros j Hj. apply store_watched; [apply Hin; by right|]. by intros ->. }
          apply steps_watched in Hsteps. set_solver. }
        unfold s1 in Hbad. simpl in Hbad.
        rewrite bool_decide_true in Hbad by auto. set_solver.
      * apply Hgone; [done|]. unfold s1. simpl. rewrite count_gets_snoc. lia.
Qed.

(** Nothing raises. *)
Lemma no_raise s x : reach s → raised_by s x → False.
Proof.
  intros Hr Hx.
  destruct (raised_cases fetch_answers builds_proxy callback_ok s x Hr Hx)
    as [(h & t & Hne & Htr & -> & Hle & _)|(h & _ & Hneg & _)]; [|lia].
  destruct (reach_clock_event s h _ Hr Htr Hne) as [Hnz _].
  destruct in_time as [?|Hlt]; [done|]. specialize (Hlt h Hne).
  unfold terminate in Hle. lia.
Qed.

Lemma logs_count_gets s s' evs i :
  logs s s' evs → omap get_id evs = [] →
  count_gets i (trace s') = count_gets i (trace s).
Proof. intros (-> & _) Hno. by apply count_gets_app_other. Qed.

(** A turn of the loop: it returns, or goes on with every build still
    watched one fetch closer to its end. *)
Lemma wait_round_ok m s :
  reach s → live (trace s) →
  (∀ i, i ∈ watched s → (N ≤ count_gets i (trace s) + S m)%nat) →
  ∃ s' r, wait_round terminate s = (s', inr r) ∧ reach s' ∧ live (trace s') ∧
    match r with
    | Some l => True
    | None => m ≠ O ∧
        ∀ i, i ∈ watched s' → (N ≤ count_gets i (trace s') + m)%nat
    end.
Proof.
  intros Hr Hl Hinv. unfold wait_round. run_M.
  destruct (for_each_ok (set_iter (watched s)) s Hr Hl (set_iter_NoDup _))
    as (s1 & Hfor & Hcount & Hgone); [intros i; apply elem_of_set_iter|].
  rewrite Hfor.
  apply for_each_sound in Hfor as (Hst1 & _ & _ & _ & Hl1 & _);
    try done; try apply set_iter_NoDup; try (intros i; apply elem_of_set_iter).
  assert (reach s1) as Hr1 by by (unfold reach; etrans).
  destruct (run_callback s1) as [s2 [x|[]]] eqn:Hcb;
    apply run_callback_sound in Hcb as (Hst2 & Hlog2 & Hres2); try done.
  { assert (reach s2) as Hr2 by by (unfold reach; etrans).
    by destruct (no_raise s2 x). }
  assert (reach s2) as Hr2 by by (unfold reach; etrans).
  destruct (decide (watched s2 = ∅)) as [He|Hne]; run_M; [by eexists _, (Some _)|].
  destruct (check_timeout terminate s2) as [s3 [x|[]]] eqn:Hck;
    apply check_timeout_sound in Hck as (Hst3 & clk & Hlog3 & Hclk & Hres3);
    try done.
  { assert (reach s3) as Hr3 by by (unfold reach; etrans).
    destruct Hres3 as (_ & _ & ?). by destruct (no_raise s3 x). }
  assert (reach s3) as Hr3 by by (unfold reach; etrans).
  assert (watched s3 ≠ ∅) as Hne3 by (destruct Hlog3 as (_ & _ & -> & _); done).
  destruct (time_sleep interval s3) as [s4 [x|[]]] eqn:Hsl;
    apply time_sleep_sound in Hsl as (Hst4 & Hlog4 & Hres4); try done.
  { assert (reach s4) as Hr4 by by (unfold reach; etrans).
    by destruct (no_raise s4 x). }
  assert (reach s4) as Hr4 by by (unfold reach; etrans).
  exists s4, None. split_and!; try done.
  - intros ->. apply Hne. destruct Hlog2 as (_ & _ & -> & _).
    apply set_eq. intros i. split; [|set_solver]. intros Hi1. exfalso.
    assert (i ∈ watched s) as Hi by (apply steps_watched in Hst1; set_solver).
    apply (Hgone i); [by apply elem_of_set_iter| |done].
    specialize (Hinv i Hi). lia.
  - intros i Hi4.
    assert (watched s4 = watched s1) as Hw41.
    { destruct Hlog4 as (_ & _ & -> & _). destruct Hlog3 as (_ & _ & -> & _).
      by destruct Hlog2 as (_ & _ & -> & _). }
    rewrite Hw41 in Hi4.
    assert (i ∈ watched s) as Hi by (apply steps_watched in Hst1; set_solver).
    rewrite (logs_count_gets s3 s4 [EvSleep interval] i Hlog4) by done.
    rewrite (logs_count_gets s2 s3 clk i Hlog3) by (by destruct Hclk as [->|[t ->]]).
    rewrite (logs_count_gets s1 s2 (callback_events s1) i Hlog2)
      by (unfold callback_events; by destruct callback).
    rewrite Hcount. rewrite decide_True by by apply elem_of_set_iter.
    specialize (Hinv i Hi). lia.
Qed.

Lemma wait_loop_ok m fuel s :
  (m < fuel)%nat → reach s → live (trace s) →
  (∀ i, i ∈ watched s → (N ≤ count_gets i (trace s) + S m)%nat) →
  ∃ s' l, wait_loop fuel terminate s = (s', inr (Some l)).
Proof.
  revert fuel s. induction m as [|m IH]; intros fuel s Hfuel Hr Hl Hinv;
    (destruct fuel as [|fuel]; [lia|]); simpl; run_M;
    destruct (wait_round_ok _ s Hr Hl Hinv) as (s1 & r & -> & Hr1 & Hl1 & Hres);
    destruct r as [l|]; eauto.
  - by destruct Hres as [? _].
  - destruct Hres as [_ Hinv1]. apply IH; try done. lia.
Qed.

Lemma wait_terminates fuel :
  (0 < N ≤ fuel)%nat → ∃ s l, wait fuel = (s, Returned l).
Proof.
  intros [HN Hfuel].
  destruct (wait_loop_ok (pred N) fuel entered) as (s & l & Hloop);
    [lia|apply rtc_refl|apply live_entered|simpl; intros; lia|].
  exists s, l. by rewrite wait_entered, Hloop.
Qed.
End termination.

(** With a capability for every build that finds the build in a terminal
    state at its [N]-th fetch at the latest, [wait] returns within [N]
    turns, and what it returns does not depend on the turns it is
    allowed beyond that. *)
Lemma capability_terminates (N : nat) :
  (0 < N)%nat →
  (∀ b, b ∈ builds →
     ∃ p, capability b p ∧
          ∀ h b', proxy_get W h p (id b) = inr b' →
                  (N ≤ S (count_gets (id b) h))%nat → terminal (state b')) →
  (∀ cb h arg, callback = Some cb → cb h arg = None) →
  (timeout = 0 ∨ ∀ h, h ≠ [] → time_time W h < time_time W [] + timeout) →
  0 ≤ interval →
  ∃ s l, ∀ fuel, (N ≤ fuel)%nat → wait fuel = (s, Returned l).
Proof.
  intros HN Hcap Hcb Htime Hint.
  assert (∀ b, b ∈ builds → ∃ q, capability b q) as Hcap'.
  { intros b Hb. destruct (Hcap b Hb) as (q & ? & _). eauto. }
  destruct (wait_terminates N) with (fuel := N) as (s & l & Hw); try done; try lia.
  - intros s0 i c p Hr _ _ Hget Hres.
    destruct (capability_fetch s0 i c p Hcap' Hr Hget Hres)
      as (b0 & b & Hin & Hid & Hc & Hb & Hu & Hres').
    exists b. split_and!; try done; [eauto|].
    intros Hle. destruct (Hcap b0 Hin) as (p' & [Hres0 _] & Hend).
    destruct Hc as [Hres1 _]. assert (p' = p) as -> by congruence.
    rewrite Hid in Hend. by apply (Hend (trace s0)).
  - by apply capability_proxy.
  - exists s, l. intros fuel Hfuel.
    replace fuel with (N + (fuel - N))%nat by lia. by apply wait_mono.
Qed.

(** C1: the list returned has, for each id [wait] was given and in the
    order given, the last Munch fetched for it, which is in a terminal
    state; when the builds given have distinct ids, as the builds of one
    session have, that is one Munch for each build given, in the order
    given.  Whenever every build given has been fetched in a terminal
    state, [wait] has returned (if the callback has not raised).  And it
    does return, within [N] turns of the loop and with the same list
    however many more turns it is allowed, when every build given has a
    fetch capability of its own (a proxy that answers the fetches of
    that build, with a state other than "unknown") which finds the build
    in a terminal state at its [N]-th fetch at the latest, the callback
    does not raise, the deadline is not reached and [interval] is not
    negative.  [given] is the list of builds read off [waitable]. *)
Theorem wait_returns_final_munches (given : list munch) :
  match waitable with
  | OneMunch m => given = [m]
  | PlainList l => given = l
  | ListObj l => given = items l
  end →
  (∀ fuel s l,
     wait fuel = (s, Returned l) →
     Some <$> l = (λ i, last (omap (got i) (trace s)))
                    <$> dict_keys (munches init) ∧
     Forall (λ m, terminal (state m)) l ∧
     (NoDup (id <$> given) →
        length l = length given ∧
        Some <$> l = (λ b, last (omap (got (id b)) (trace s))) <$> given)) ∧
  ((∀ cb h arg, callback = Some cb → cb h arg = None) →
   ∀ fuel s o,
     wait fuel = (s, o) → given ≠ [] →
     (∀ b, b ∈ given →
           ∃ p m, EvGet p (id b) (inr m) ∈ trace s ∧ terminal (state m)) →
     o = Returned (dict_values (munches s))) ∧
  (∀ N : nat,
     (0 < N)%nat →
     (∀ b, b ∈ given →
        ∃ p, capability b p ∧
             ∀ h b', proxy_get W h p (id b) = inr b' →
                     (N ≤ S (count_gets (id b) h))%nat → terminal (state b')) →
     (∀ cb h arg, callback = Some cb → cb h arg = None) →
     (timeout = 0 ∨ ∀ h, h ≠ [] → time_time W h < time_time W [] + timeout) →
     0 ≤ interval →
     ∃ s l,
       (∀ fuel, (N ≤ fuel)%nat → wait fuel = (s, Returned l)) ∧
       Forall (λ m, terminal (state m)) l ∧
       (NoDup (id <$> given) →
          length l = length given ∧
          Some <$> l = (λ b, last (omap (got (id b)) (trace s))) <$> given)).
Proof.
  intros Hgiven.
  assert (builds = given) as Hb by (unfold builds; by destruct waitable).
  rewrite <- Hb. split_and!.
  - apply returned_final_munches.
  - intros Hcb fuel s o. by apply all_terminal_returned.
  - intros N HN Hcap Hcb Htime Hint.
    destruct (capability_terminates N HN Hcap Hcb Htime Hint) as (s & l & Hall).
    exists s, l. split; [done|].
    by destruct (returned_final_munches N s l (Hall N (le_n N))) as (_ & ? & ?).
Qed.

(** ** Properties of [wait] *)

(** C2: as soon as a fetch answers a build in state "unknown", [wait]
    raises [CoprException("Unknown status.")]: the fetch is the last event
    of the session (no further fetch, no callback, no clock, no sleep
    comes after it), whatever the other builds are doing, and nothing is
    returned. *)
Theorem unknown_status_raises_at_once fuel s o h p i b h2 :
  wait fuel = (s, o) →
  trace s = h ++ EvGet p i (inr b) :: h2 →
  state b = "unknown" →
  h2 = [] ∧ o = Raised unknown_exn ∧ ∀ l, o ≠ Returned l.
Proof.
  intros Hw Htr Hu.
  assert (fatal h (EvGet p i (inr b)) = Some unknown_exn) as Hf
    by (simpl; by rewrite bool_decide_true).
  destruct (fatal_event_outcome fuel s o h _ h2 _ Hw Htr Hf) as [-> ->]. done.
Qed.

(** C7: every fetch goes through the proxy of the build's own latest
    Munch when that Munch has a [__proxy__], and through the [__proxy__]
    of the [waitable] argument only when it has none. *)
Theorem fetch_through_own_proxy fuel s o h p i r h2 :
  wait fuel = (s, o) →
  trace s = h ++ EvGet p i r :: h2 →
  ∃ cur, snapshot h i = Some cur ∧
    (hasattr_proxy cur = true → __proxy__ cur = AttrProxy p) ∧
    (hasattr_proxy cur = false →
       __proxy__ cur = NoAttr ∧ waitable_proxy waitable = AttrProxy p) ∧
    r = proxy_get W h p i.
Proof.
  intros [Hr _]%wait_sound Htr.
  destruct (reach_event_ok s Hr _ _ _ Htr) as (-> & _ & (cur & Hsnap & Hres) & _).
  exists cur. split; [done|]. unfold resolve, hasattr_proxy in *.
  destruct (__proxy__ cur); naive_solver.
Qed.

(** C6, as the code has it: the [failed] list holds exactly the builds
    that were fetched in state "failed", in the order they were seen; a
    build fetched "canceled" is not added. Seeing a build fail ends
    nothing: whether another build is still watched depends on the states
    fetched for that build alone. *)
Theorem failed_list_records_failed fuel :
  let s := (wait fuel).1 in
  failed s = seen_failed (trace s) ∧
  (∀ i, i ∈ failed s ↔ ∃ p b, EvGet p i (inr b) ∈ trace s ∧ state b = "failed") ∧
  (∀ h p i b, trace s = h ++ [EvGet p i (inr b)] → state b = "failed" →
     fatal h (EvGet p i (inr b)) = None) ∧
  (∀ j, j ∈ watched s ↔
        j ∈ watched init ∧ ∀ b, b ∈ omap (got j) (trace s) → ¬ terminal (state b)).
Proof.
  destruct (wait fuel) as [s o] eqn:Hw. simpl.
  apply wait_sound in Hw as [Hr _]. split_and!.
  - by apply reach_failed.
  - intros i. rewrite (reach_failed s Hr). unfold seen_failed.
    rewrite list_elem_of_omap. split.
    + intros ([]& Hin & Hsome); try done. destruct r as [|b]; try done.
      case_bool_decide as Hst; try done. injection Hsome as ->.
      apply list_elem_of_singleton in Hst. eauto.
    + intros (p & b & Hin & Hst). eexists. split; [done|]. simpl.
      rewrite bool_decide_true; [done|]. by apply list_elem_of_singleton.
  - intros h p i b _ Hst. simpl. rewrite bool_decide_false; [done|]. by rewrite Hst.
  - intros j. by apply reach_watched_iff.
Qed.

(** C4: in a turn of the loop (from the session [s] of [wait k = (s,
    Running)], in which turn [k+1] begins, to the session of [wait (S k)])
    the builds fetched are builds of the
    watched set, in the order the set is iterated, each once; all of them
    unless the turn ends in an exception.  A build fetched in a terminal
    state leaves the watched set and is not fetched again; the Munch it
    was fetched with stays its latest one and is in the list [wait]
    returns.  The watched set never grows. *)
Theorem watched_builds_fetched_once :
  (∀ k s s' o',
     wait k = (s, Running) → wait (S k) = (s', o') →
     ∃ evs, trace s' = trace s ++ evs ∧
       omap get_id evs `prefix_of` set_iter (watched s) ∧
       NoDup (omap get_id evs) ∧
       ((∀ x, o' ≠ Raised x) → omap get_id evs ≡ₚ elements (watched s)) ∧
       watched s' ⊆ watched s) ∧
  (∀ fuel s o h p i b h2,
     wait fuel = (s, o) →
     trace s = h ++ EvGet p i (inr b) :: h2 → terminal (state b) →
     i ∉ watched s ∧ (∀ e, e ∈ h2 → get_id e ≠ Some i) ∧
     snapshot (trace s) i = Some b ∧ (∀ l, o = Returned l → b ∈ l)) ∧
  (∀ k n, watched (wait (k + n)).1 ⊆ watched (wait k).1 ∧
          watched (wait k).1 ⊆ list_to_set (id <$> builds)).
Proof.
  split_and!.
  - intros k s s' o' Hk HSk.
    destruct (wait_next k s s' o' Hk HSk) as (Hr & Hl & r & Hround & ->).
    apply wait_round_sound in Hround
      as (s1 & gets & rest & Hst1 & Hst2 & Htr1 & Hgets & Hpre & Hlog & Hend & Hcase);
      try done.
    destruct Hlog as (Htr2 & _ & Hw2 & _).
    assert (omap get_id rest = []) as Hrest.
    { destruct Hcase as [(_ & -> & _)|(_ & _ & tail & -> & clk & slp & -> & Hclk & Hslp)];
        [done|].
      rewrite !omap_app. unfold callback_events.
      destruct callback; destruct Hclk as [->|[t ->]]; destruct Hslp as [->| ->]; done. }
    exists (gets ++ rest). rewrite omap_app, Hrest, app_nil_r. split_and!.
    + by rewrite Htr2, Htr1, <- app_assoc.
    + done.
    + destruct Hpre as [k' Hk']. pose proof (set_iter_NoDup (watched s)) as Hnd.
      rewrite Hk' in Hnd. by apply NoDup_app in Hnd as [? _].
    + intros Hno. destruct Hcase as [([x ->] & _)|(_ & -> & _)].
      * by destruct (Hno x).
      * apply set_iter_perm.
    + rewrite Hw2. by apply steps_watched.
  - intros fuel s o h p i b h2 Hw Htr Hterm.
    pose proof Hw as [Hr Hex]%wait_sound.
    pose proof (reach_terminal_final s h p i b h2 Hr Htr Hterm) as Hlater.
    assert (snapshot (trace s) i = Some b) as Hsnap.
    { unfold snapshot. rewrite Htr, omap_app. csimpl. rewrite decide_True by done.
      rewrite (omap_got_nil i h2 Hlater). by rewrite last_snoc. }
    split_and!; try done.
    + intros Hin. apply (reach_watched_iff s i Hr) in Hin as [_ Hall].
      apply (Hall b); [|done]. rewrite Htr, omap_app. apply elem_of_app. right.
      csimpl. rewrite decide_True by done. left.
    + intros l ->. destruct Hex as (_ & _ & ->).
      apply (dict_get_values i). by rewrite reach_snapshot.
  - intros k n. split.
    + apply steps_watched, wait_steps.
    + destruct (wait k) as [s o] eqn:Hk. apply wait_sound in Hk as [Hr _].
      by apply reach_watched in Hr.
Qed.

(** C5: with a callback, a turn of the loop (from the session [s] of
    [wait k = (s, Running)] to the session of [wait (S k)]) whose fetches
    all come back
    (every watched build fetched, none of the fetches fatal) calls the
    callback exactly once: after the fetches and before the clock is read
    and the sleep, which are all that can follow it in the turn.  It is
    given the values of [munches], which are the latest Munches of all
    the builds [wait] was given, terminal or not, as many as there are
    builds.  A turn whose fetches are cut short by an exception ends there
    and does not call it. *)
Theorem callback_once_per_round k s s' o' cb :
  wait k = (s, Running) → wait (S k) = (s', o') → callback = Some cb →
  ∃ gets rest,
    trace s' = trace s ++ gets ++ rest ∧ Forall is_get gets ∧
    ((rest = [] ∧ (∃ x, o' = Raised x) ∧
      ¬ (live (trace s ++ gets) ∧ omap get_id gets = set_iter (watched s)))
     ∨
     (live (trace s ++ gets) ∧ omap get_id gets = set_iter (watched s) ∧
      ∃ arg tail,
        rest = EvCallback arg :: tail ∧ round_tail tail ∧
        arg = dict_values (munches s') ∧
        Some <$> arg = snapshot (trace s ++ gets) <$> dict_keys (munches init) ∧
        length arg = size (watched init) ∧
        (NoDup (id <$> builds) → length arg = length builds))).
Proof.
  intros Hk HSk Hcb.
  destruct (wait_next k s s' o' Hk HSk) as (Hr & Hl & r & Hround & ->).
  apply wait_round_sound in Hround
    as (s1 & gets & rest & Hst1 & Hst2 & Htr1 & Hgets & Hpre & Hlog & Hend & Hcase);
    try done.
  destruct Hlog as (Htr2 & Hm2 & _ & _).
  assert (reach s1) as Hr1 by by (unfold reach; etrans).
  exists gets, rest. split_and!; try done.
  { by rewrite Htr2, Htr1, <- app_assoc. }
  rewrite <- Htr1.
  destruct Hcase as [([x ->] & -> & Hneq)|(Hl1 & Hids & tail & -> & Htail)].
  - left. split_and!; eauto. intros [? ?]. by apply Hneq.
  - right. split_and!; try done. unfold callback_events. rewrite Hcb.
    eexists _, tail. split_and!; try done.
    + by rewrite Hm2.
    + by apply reach_values.
    + by apply reach_values_length.
    + intros Hnd. rewrite dict_values_length, reach_keys, init_keys_ids by done.
      by rewrite length_fmap.
Qed.

(** How a turn of the loop ends when there is a deadline: before the
    clock is read (a fetch or the callback raised, or no build is left to
    watch), or at the reading of the clock, which is at or past the
    deadline, or at the sleep that follows a reading before the
    deadline.  [pre] is the fetches and the call of the callback. *)
Lemma wait_round_boundary s s' r :
  timeout ≠ 0 → reach s → live (trace s) →
  wait_round terminate s = (s', r) →
  ∃ pre, (∀ sec, EvSleep sec ∉ pre) ∧
    ((trace s' = trace s ++ pre ∧ r ≠ inr None) ∨
     (∃ t, t = time_time W (trace s ++ pre) ∧
           (∀ cb, callback = Some cb → ∃ pre' arg, pre = pre' ++ [EvCallback arg]) ∧
           ((terminate ≤ t ∧ trace s' = trace s ++ pre ++ [EvTime t] ∧
             r = inl timeout_exn) ∨
            (t < terminate ∧
             trace s' = trace s ++ pre ++ [EvTime t; EvSleep interval] ∧
             r ≠ inl timeout_exn)))).
Proof.
  intros Hnz Hr Hl. unfold wait_round. run_M.
  destruct (for_each (set_iter (watched s)) refresh s) as [s1 [x|[]]] eqn:Hfor;
    apply for_each_sound in Hfor as (Hst1 & gets & Htr1 & Hgets & Hres);
    try done; try apply set_iter_NoDup; try (intros i; apply elem_of_set_iter).
  { intros [= <- <-]. exists gets. split; [|by left].
    intros sec Hin. rewrite Forall_forall in Hgets. by apply Hgets in Hin. }
  destruct Hres as [Hl1 _].
  assert (reach s1) as Hr1 by by (unfold reach; etrans).
  assert (∀ sec, EvSleep sec ∉ gets ++ callback_events s1) as Hno.
  { intros sec [Hin|Hin]%elem_of_app.
    - rewrite Forall_forall in Hgets. by apply Hgets in Hin.
    - unfold callback_events in Hin. destruct callback; [|by apply elem_of_nil in Hin].
      by apply list_elem_of_singleton in Hin. }
  destruct (run_callback s1) as [s2 [x|[]]] eqn:Hcb;
    apply run_callback_sound in Hcb as (Hst2 & (Htr2 & _ & Hw2 & _) & Hres2);
    try done.
  { intros [= <- <-]. exists (gets ++ callback_events s1). split; [done|]. left.
    split; [|done]. by rewrite Htr2, Htr1, <- app_assoc. }
  destruct (decide (watched s2 = ∅)) as [He|Hne]; run_M.
  { intros [= <- <-]. exists (gets ++ callback_events s1). split; [done|]. left.
    split; [|done]. by rewrite Htr2, Htr1, <- app_assoc. }
  assert (trace s2 = trace s ++ gets ++ callback_events s1) as Htr
    by (by rewrite Htr2, Htr1, <- app_assoc).
  assert (∀ cb, callback = Some cb →
            ∃ pre' arg, gets ++ callback_events s1 = pre' ++ [EvCallback arg])
    as Hcall.
  { intros cb Hc. unfold callback_events. rewrite Hc. eauto. }
  unfold check_timeout, time_now. rewrite decide_False by done. run_M.
  case_bool_decide as Hle; run_M.
  { intros [= <- <-]. exists (gets ++ callback_events s1). split; [done|]. right.
    exists (time_time W (trace s2)). rewrite <- Htr. split_and!; try done.
    left. split_and!; try done. simpl. by rewrite Htr, <- !app_assoc. }
  unfold time_sleep. run_M.
  destruct (decide (interval < 0)); run_M; intros [= <- <-];
    exists (gets ++ callback_events s1); (split; [done|]); right;
    exists (time_time W (trace s2)); rewrite <- Htr; (split_and!; try done);
    right; (split_and!; try done); try lia;
    simpl; by rewrite Htr, <- !app_assoc.
Qed.

Lemma count_sleeps_app h1 h2 :
  count_sleeps (h1 ++ h2) = (count_sleeps h1 + count_sleeps h2)%nat.
Proof. unfold count_sleeps. by rewrite omap_app, length_app. Qed.

Lemma count_sleeps_none h : (∀ sec, EvSleep sec ∉ h) → count_sleeps h = 0%nat.
Proof.
  unfold count_sleeps. induction h as [|e h IH]; intros Hno; [done|].
  csimpl. destruct e as [| | |sec]; try (apply IH; intros sec' ?; apply (Hno sec'); by right).
  destruct (Hno sec). left.
Qed.

(** When there is a deadline, the clock is read before every sleep, once
    the callback has been called, and it is before the deadline. *)
Lemma wait_sleep_checked k :
  timeout ≠ 0 →
  each_event (λ h e, match e with
                     | EvSleep _ =>
                         ∃ h0 t, h = h0 ++ [EvTime t] ∧ t = time_time W h0 ∧
                           t < terminate ∧
                           (∀ cb, callback = Some cb →
                                  ∃ h' arg, h0 = h' ++ [EvCallback arg])
                     | _ => True
                     end) (trace (wait k).1).
Proof.
  intros Hnz. induction k as [|k IH].
  - intros h1 e h2 Heq. simpl in Heq. destruct h1; simplify_list_eq; [done|].
    by destruct h1.
  - destruct (wait k) as [s o] eqn:Hk.
    destruct (decide (o = Running)) as [->|Hnr].
    2:{ replace (S k) with (k + 1)%nat by lia.
        by rewrite (wait_mono k 1 s o Hk Hnr). }
    destruct (wait (S k)) as [s' o'] eqn:HSk. simpl in *.
    destruct (wait_next k s s' o' Hk HSk) as (Hr & Hl & r & Hround & _).
    apply wait_round_boundary in Hround as (pre & Hno & Hcases); try done.
    assert (each_event (λ h e, match e with
                     | EvSleep _ =>
                         ∃ h0 t, h = h0 ++ [EvTime t] ∧ t = time_time W h0 ∧
                           t < terminate ∧
                           (∀ cb, callback = Some cb →
                                  ∃ h' arg, h0 = h' ++ [EvCallback arg])
                     | _ => True
                     end) (trace s ++ pre)) as Hpre.
    { apply each_event_app; [done|]. intros h1 e h2 ->.
      destruct e as [| | |sec]; try done. destruct (Hno sec).
      apply elem_of_app. right. left. }
    destruct Hcases as [[-> _]|(t & Ht & Hcall & [(_ & -> & _)|(Hlt & -> & _)])].
    + done.
    + rewrite app_assoc. by apply each_event_snoc.
    + replace (trace s ++ pre ++ [EvTime t; EvSleep interval])
        with (((trace s ++ pre) ++ [EvTime t]) ++ [EvSleep interval])
        by (by rewrite <- !app_assoc).
      apply each_event_snoc; [by apply each_event_snoc|].
      exists (trace s ++ pre), t. split_and!; try done.
      intros cb Hcb. destruct (Hcall cb Hcb) as (pre' & arg & ->).
      exists (trace s ++ pre'), arg. by rewrite app_assoc.
Qed.

(** A session that goes on after [k] turns has slept [k] times. *)
Lemma wait_running_sleeps k s :
  timeout ≠ 0 → wait k = (s, Running) → count_sleeps (trace s) = k.
Proof.
  intros Hnz. revert s. induction k as [|k IH]; intros s' HSk.
  - rewrite wait_entered in HSk. simpl in HSk. by injection HSk as <-.
  - destruct (wait k) as [s o] eqn:Hk.
    destruct (decide (o = Running)) as [->|Hnr].
    2:{ replace (S k) with (k + 1)%nat in HSk by lia.
        rewrite (wait_mono k 1 s o Hk Hnr) in HSk. congruence. }
    destruct (wait_next k s s' Running Hk HSk) as (Hr & Hl & r & Hround & Ho).
    destruct r as [x|[l|]]; try done.
    apply wait_round_boundary in Hround as (pre & Hno & Hcases); try done.
    destruct Hcases as [[_ ?]|(t & _ & _ & [(_ & _ & ?)|(_ & -> & _)])]; try done.
    rewrite !count_sleeps_app, (IH s eq_refl), (count_sleeps_none pre Hno).
    unfold count_sleeps. simpl. lia.
Qed.

(** C3: provided neither a frontend nor the callback raises
    [CoprException("Timeouted")] of its own, [wait] raises it exactly when
    [timeout] is not zero, builds are still watched, and a reading of the
    clock after the first one (they are taken at the end of a turn) shows
    that [timeout] or more has elapsed since the first.  That reading is
    then the last event, and comes right after the turn's call of the
    callback.  So with [timeout = 0], or once the watched set is empty,
    [wait] does not time out; and a turn that leaves the watched set
    empty, with no fetch or callback having raised, returns, whatever the
    clock says.

    The clock is read at the end of every turn that goes on: when
    [timeout] is not zero, every sleep comes right after a reading of
    the clock, taken once the callback has been called, that shows less
    than [timeout] elapsed.  So if the clock shows [timeout] or more
    elapsed once [wait] has slept [D] times, [wait] has ended by its
    [D+1]-th turn; with a fetch capability for every build, a callback
    that does not raise and an [interval] that is not negative, it has
    then raised [CoprException("Timeouted")] if builds are still
    watched. *)
Theorem timeout_raised_iff fuel s o :
  (∀ h p i, proxy_get W h p i ≠ inl timeout_exn) →
  (∀ cb h arg, callback = Some cb → cb h arg ≠ Some timeout_exn) →
  wait fuel = (s, o) →
  (o = Raised timeout_exn ↔
     timeout ≠ 0 ∧ watched s ≠ ∅ ∧
     ∃ h t h2, h ≠ [] ∧ trace s = h ++ EvTime t :: h2 ∧
               timeout ≤ t - time_time W []) ∧
  (o = Raised timeout_exn →
     ∃ h t, trace s = h ++ callback_events s ++ [EvTime t] ∧
            t = time_time W (h ++ callback_events s)) ∧
  (timeout = 0 → o ≠ Raised timeout_exn) ∧
  (watched s = ∅ → o ≠ Raised timeout_exn) ∧
  (fuel ≠ O → watched s = ∅ → live (trace s) →
     o = Returned (dict_values (munches s))) ∧
  (timeout ≠ 0 →
   ∀ h sec h2, trace s = h ++ EvSleep sec :: h2 →
     ∃ h0 t, h = h0 ++ [EvTime t] ∧ t = time_time W h0 ∧
             t - time_time W [] < timeout ∧
             (∀ cb, callback = Some cb → ∃ h' arg, h0 = h' ++ [EvCallback arg])) ∧
  (timeout ≠ 0 →
   ∀ D : nat,
     (∀ h, (D ≤ count_sleeps h)%nat → (∀ sec, EvSleep sec ∈ h → sec = interval) →
           timeout ≤ time_time W h - time_time W []) →
     (D < fuel)%nat →
     o ≠ Running ∧
     ((∀ b, b ∈ builds → ∃ p, capability b p) →
      (∀ cb h arg, callback = Some cb → cb h arg = None) →
      0 ≤ interval → watched s ≠ ∅ → o = Raised timeout_exn)).
Proof.
  intros HW Hcb Hw. pose proof Hw as [Hr Hex]%wait_sound.
  assert (o = Raised timeout_exn →
          ∃ h t, h ≠ [] ∧ trace s = h ++ [EvTime t] ∧ terminate ≤ t) as Hfwd.
  { intros ->. simpl in Hex. destruct Hex as [(h & e & Htr & Hf)|(_ & ? & _)]; [|done].
    pose proof (reach_event_ok s Hr h e [] Htr) as Hok.
    destruct e as [t|p i [x|b]|arg|sec]; simpl in Hf, Hok.
    - case_bool_decide as Hc; [|done]. destruct Hc. eauto.
    - destruct Hok as [Hx _]. injection Hf as ->. by destruct (HW h p i).
    - case_bool_decide; done.
    - destruct callback as [cb|]; [|done]. by destruct (Hcb cb h arg).
    - case_bool_decide; done. }
  assert (o = Raised timeout_exn ↔
     timeout ≠ 0 ∧ watched s ≠ ∅ ∧
     ∃ h t h2, h ≠ [] ∧ trace s = h ++ EvTime t :: h2 ∧
               timeout ≤ t - time_time W []) as Hiff.
  { split.
    - intros Ho. destruct (Hfwd Ho) as (h & t & Hne & Htr & Hle).
      destruct (reach_clock_event s h t Hr Htr Hne) as [? ?].
      split_and!; try done. exists h, t, []. unfold terminate in Hle.
      split_and!; try done. lia.
    - intros (Hnz & Hne & h & t & h2 & Hh & Htr & Hle).
      eapply fatal_event_outcome; [done..|]. simpl.
      rewrite bool_decide_true; [done|]. unfold terminate. split; [done|lia]. }
  split_and!.
  - done.
  - intros Ho. destruct (Hfwd Ho) as (h & t & Hne & Htr & Hle).
    assert (o ≠ Running) as Hnr by by rewrite Ho.
    destruct (wait_last_round fuel s o Hw Hnr) as (k & s0 & Hk & HSk).
    destruct (clock_follows_callback k s0 s o h t Hk HSk Htr Hne) as [h' ->].
    exists h', t. rewrite Htr, <- app_assoc. split; [done|].
    by apply (reach_event_ok s Hr _ (EvTime t) [] Htr).
  - intros Hz Ho. apply Hiff in Ho as [? _]. done.
  - intros He Ho. apply Hiff in Ho as (_ & ? & _). done.
  - intros Hfuel He Hl. by apply (emptied_returns fuel).
  - intros Hnz h sec h2 Htr.
    pose proof (wait_sleep_checked fuel Hnz) as Hall. rewrite Hw in Hall.
    destruct (Hall h (EvSleep sec) h2 Htr) as (h0 & t & -> & -> & Hlt & Hcall).
    exists h0, (time_time W h0). split_and!; try done.
    unfold terminate in Hlt. lia.
  - intros Hnz D Hclock Hfuel.
    assert (o ≠ Running) as Hnr.
    { intros ->. pose proof (wait_running_sleeps fuel s Hnz Hw) as Hcount.
      destruct (wait_running_start fuel s Hw) as [->|[h Htr]].
      { unfold count_sleeps in Hcount. simpl in Hcount. lia. }
      pose proof (wait_sleep_checked fuel Hnz) as Hall. rewrite Hw in Hall.
      destruct (Hall h (EvSleep interval) [] Htr) as (h0 & t & -> & -> & Hlt & _).
      rewrite Htr, !count_sleeps_app in Hcount.
      unfold count_sleeps at 2 3 in Hcount. simpl in Hcount.
      assert (timeout ≤ time_time W h0 - time_time W []) as Hle.
      { apply Hclock; [lia|]. intros sec (h1 & h3 & ->)%list_elem_of_split.
        rewrite <- !app_assoc in Htr. simpl in Htr.
        by apply (reach_event_ok s Hr _ (EvSleep sec) _ Htr). }
      unfold terminate in Hlt. lia. }
    split; [done|]. intros Hcap Hcbok Hint Hne.
    destruct o as [l|x|]; [| |done].
    + simpl in Hex. by destruct Hex as (_ & ? & _).
    + simpl in Hex.
      destruct (capability_raised s x Hcap Hcbok Hr Hex)
        as [(_ & _ & _ & _ & _ & _ & ->)|(_ & _ & ? & _)]; [done|lia].
Qed.

(** C8, as the code has it: the failure on an "unknown" state and the
    failure on the deadline are both raised as [CoprException]; they are
    the same class of exception and differ in their message only,
    "Unknown status." for the one and "Timeouted" for the other. *)
Theorem failures_are_CoprException fuel s o :
  wait fuel = (s, o) →
  (∀ h p i b, trace s = h ++ [EvGet p i (inr b)] → state b = "unknown" →
     o = Raised (Exn CoprException "Unknown status.")) ∧
  (∀ h t, h ≠ [] → trace s = h ++ [EvTime t] → terminate ≤ t →
     o = Raised (Exn CoprException "Timeouted")) ∧
  exn_cls (Exn CoprException "Unknown status.")
    = exn_cls (Exn CoprException "Timeouted") ∧
  exn_msg (Exn CoprException "Unknown status.")
    ≠ exn_msg (Exn CoprException "Timeouted").
Proof.
  intros Hw. split_and!; try done.
  - intros h p i b Htr Hu.
    eapply (fatal_event_outcome fuel s o h _ []); [done..|].
    simpl. by rewrite bool_decide_true.
  - intros h t Hne Htr Hle.
    eapply (fatal_event_outcome fuel s o h _ []); [done..|].
    simpl. by rewrite bool_decide_true.
Qed.

(** C10: given no builds, [wait] reads the clock, calls the callback, if
    there is one, once with the empty list, and returns the empty list in
    the first turn of the loop: no fetch, no sleep, whatever [interval]
    and [timeout] are.  (A callback that raises would end [wait] with its
    exception.) *)
Theorem wait_empty_list fuel :
  builds = [] →
  (∀ cb, callback = Some cb → cb [EvTime (time_time W [])] [] = None) →
  wait (S fuel) =
    ({| watched := ∅; munches := []; failed := [];
        trace := EvTime (time_time W []) ::
                 match callback with Some _ => [EvCallback []] | None => [] end |},
     Returned []).
Proof.
  intros Hb Hcb.
  assert (set_iter (∅ : gset Z) = []) as Hiter.
  { apply Permutation_nil_r. rewrite set_iter_perm. by rewrite elements_empty. }
  unfold wait, wait_body, init, time_now. rewrite Hb. simpl. run_M.
  unfold wait_round. run_M. rewrite Hiter. simpl. run_M.
  unfold run_callback, dict_of, dict_values. destruct callback as [cb|]; csimpl; run_M.
  - rewrite fmap_nil, (Hcb cb eq_refl). run_M. by rewrite decide_True.
  - by rewrite decide_True.
Qed.

(** ** More of [wait] *)

(** Every beginning of a trace is the trace of a session gone through. *)
Lemma reach_prefix s h e h2 :
  reach s → trace s = h ++ e :: h2 → ∃ s', reach s' ∧ trace s' = h ++ [e].
Proof.
  intros Hr. revert h e h2.
  induction Hr as [|s1 s2 Hr Hst IH] using reach_induction; intros h e h2 Htr.
  - simpl in Htr. destruct h as [|e0 h]; simplify_list_eq.
    + exists entered. split; [apply rtc_refl|done].
    + by destruct h.
  - destruct (step_trace _ _ Hst) as [e' He']. rewrite He' in Htr.
    apply snoc_split in Htr as [(-> & -> & ->)|(h2' & -> & Htr)].
    + exists s2. split; [by eapply rtc_r|done].
    + by eapply IH.
Qed.

(** X1: what a callee raises, [wait] raises, unchanged and at once: an
    exception of [proxy.get], or of the callback, is the outcome of
    [wait], and the call that raised is the last event of the session. *)
Theorem callee_exceptions_propagate fuel s o :
  wait fuel = (s, o) →
  (∀ h p i x h2,
     trace s = h ++ EvGet p i (inl x) :: h2 →
     h2 = [] ∧ o = Raised x ∧ proxy_get W h p i = inl x) ∧
  (∀ cb h arg x h2,
     callback = Some cb → trace s = h ++ EvCallback arg :: h2 →
     cb h arg = Some x → h2 = [] ∧ o = Raised x).
Proof.
  intros Hw. split.
  - intros h p i x h2 Htr.
    destruct (fatal_event_outcome fuel s o h _ h2 x Hw Htr eq_refl) as [-> ->].
    apply wait_sound in Hw as [Hr _].
    by destruct (reach_event_ok s Hr _ _ _ Htr) as (<- & _).
  - intros cb h arg x h2 Hcb Htr Hx.
    eapply fatal_event_outcome; [done..|]. simpl. by rewrite Hcb.
Qed.

(** X2: with a negative [interval] there is one turn of the loop and no
    more: [wait] has returned or raised after it, the [ValueError] of
    [time.sleep] when nothing else ended the turn. *)
Theorem negative_interval_one_turn fuel :
  interval < 0 →
  wait (S fuel) = wait 1 ∧ (wait 1).2 ≠ Running ∧
  (∀ h sec h2, trace (wait 1).1 = h ++ EvSleep sec :: h2 →
     h2 = [] ∧
     (wait 1).2 = Raised (Exn ValueError "sleep length must be non-negative")).
Proof.
  intros Hneg. destruct (wait 1) as [s o] eqn:H1. simpl.
  assert (∀ h sec h2, trace s = h ++ EvSleep sec :: h2 →
            h2 = [] ∧
            o = Raised (Exn ValueError "sleep length must be non-negative"))
    as Hsleep.
  { intros h sec h2 Htr. pose proof H1 as [Hr _]%wait_sound.
    pose proof (reach_event_ok s Hr _ _ _ Htr) as Hsec. simpl in Hsec. subst sec.
    eapply fatal_event_outcome; [done..|]. simpl. by rewrite bool_decide_true. }
  assert (o ≠ Running) as Hnr.
  { intros ->. destruct (wait_running_start 1 s H1) as [->|[h Htr]].
    - destruct (wait_next 0 entered entered Running eq_refl H1)
        as (Hr & Hl & r & Hround & Ho).
      destruct r as [x|[l|]]; try done.
      apply wait_round_sound in Hround
        as (_ & _ & _ & _ & _ & _ & _ & _ & _ & Hend & _); try done.
      destruct Hend as (_ & _ & h & Htr). simpl in Htr.
      destruct h; [done|]. by destruct h.
    - by destruct (Hsleep h interval [] Htr) as [_ ?]. }
  split_and!; try done.
  replace (S fuel) with (1 + fuel)%nat by lia. by apply wait_mono.
Qed.

(** X3: with [timeout = 0] the clock is read on entry and never again. *)
Theorem no_timeout_clock_read_once fuel s o h t h2 :
  timeout = 0 →
  wait fuel = (s, o) → trace s = h ++ EvTime t :: h2 → h = [].
Proof.
  intros Hz [Hr _]%wait_sound Htr.
  destruct (reach_prefix s h _ h2 Hr Htr) as (s' & Hr' & Htr').
  destruct h as [|e h]; [done|].
  by destruct (reach_clock_event s' (e :: h) t Hr' Htr').
Qed.

(** X6: the [failed] list holds a build at most once, and only builds
    that were given and are no longer watched. *)
Theorem failed_list_invariant fuel :
  let s := (wait fuel).1 in
  NoDup (failed s) ∧
  ∀ i, i ∈ failed s → i ∈ watched init ∧ i ∉ watched s.
Proof.
  destruct (wait fuel) as [s o] eqn:Hw. simpl.
  apply wait_sound in Hw as [Hr _].
  induction Hr as [|s1 s2 Hr Hst [Hnd Hin]] using reach_induction.
  - simpl. split; [constructor|]. by intros i ?%elem_of_nil.
  - pose proof (reach_watched s1 Hr) as Hsub.
    step_cases Hst; simpl; try done.
    assert (b_failed : state b ∈ ["failed"] → terminal (state b))
      by (unfold terminal; set_solver).
    case_bool_decide as Hf.
    + rewrite bool_decide_true by auto. split.
      * apply NoDup_app. split_and!; [done| |apply NoDup_singleton].
        intros i Hi ->%list_elem_of_singleton. by destruct (Hin j Hi).
      * intros i [Hi| ->%list_elem_of_singleton]%elem_of_app.
        -- destruct (Hin i Hi). set_solver.
        -- set_solver.
    + split; [done|]. intros i Hi. destruct (Hin i Hi).
      case_bool_decide; set_solver.
Qed.

(** Once the watched builds were fetched in a turn, every build given has
    been fetched: the ones no longer watched in an earlier turn. *)
Lemma round_fetched s gets :
  reach s → live (trace s ++ gets) →
  omap get_id gets = set_iter (watched s) →
  ∀ i, i ∈ watched init → omap (got i) (trace s ++ gets) ≠ [].
Proof.
  intros Hr Hl Hids i Hi. rewrite omap_app.
  destruct (decide (i ∈ watched s)) as [Hw|Hw].
  - apply elem_of_set_iter in Hw. rewrite <- Hids in Hw.
    apply list_elem_of_omap in Hw as (e & (g1 & g2 & ->)%list_elem_of_split & Hid).
    destruct e as [|p j r| |]; try done. injection Hid as ->.
    destruct r as [x|b].
    { specialize (Hl (trace s ++ g1) (EvGet p i (inl x)) g2).
      rewrite <- app_assoc in Hl. by specialize (Hl eq_refl). }
    rewrite omap_app. csimpl. rewrite decide_True by done.
    intros Hnil. apply app_eq_nil in Hnil as [_ Hnil].
    apply app_eq_nil in Hnil as [_ Hnil]. done.
  - intros [Hnil _]%app_eq_nil. apply Hw, reach_watched_iff; [done|].
    split; [done|]. rewrite Hnil. by intros b ?%elem_of_nil.
Qed.

(** Whenever the callback is called, every build given has been fetched. *)
Lemma wait_callbacks_fetched k :
  each_event (λ h e, match e with
                     | EvCallback _ => ∀ i, i ∈ watched init → omap (got i) h ≠ []
                     | _ => True
                     end) (trace (wait k).1).
Proof.
  induction k as [|k IH].
  - intros h1 e h2 Heq. simpl in Heq. destruct h1; simplify_list_eq; [done|].
    by destruct h1.
  - destruct (wait k) as [s o] eqn:Hk.
    destruct (decide (o = Running)) as [->|Hnr].
    2:{ replace (S k) with (k + 1)%nat by lia.
        by rewrite (wait_mono k 1 s o Hk Hnr). }
    destruct (wait (S k)) as [s' o'] eqn:HSk. simpl in *.
    destruct (wait_next k s s' o' Hk HSk) as (Hr & Hl & r & Hround & _).
    apply wait_round_sound in Hround
      as (s1 & gets & rest & _ & _ & Htr1 & Hgets & _ & (Htr' & _) & _ & Hcases);
      try done.
    rewrite Htr', Htr1. apply each_event_app.
    + apply each_event_app; [done|]. intros h1 e h2 ->.
      apply Forall_app in Hgets as [_ Hgets]. apply Forall_cons in Hgets as [He _].
      by destruct e.
    + intros h1 e h2 ->. destruct e as [| |arg|]; try done.
      destruct Hcases as [(_ & Hnil & _)|(Hl1 & Hids & tail & Hrest & Htail)].
      { by destruct h1. }
      rewrite Htr1 in Hl1.
      assert (h1 = []) as ->.
      { destruct Htail as (clk & slp & -> & Hclk & Hslp).
        unfold callback_events in Hrest.
        assert (∀ h3 h4, clk ++ slp ≠ h3 ++ EvCallback arg :: h4) as Hno.
        { intros h3 h4 Heq.
          assert (EvCallback arg ∈ clk ++ slp) as [Hin|Hin]%elem_of_app
            by (rewrite Heq; apply elem_of_app; right; left).
          - destruct Hclk as [->|[t ->]]; [by apply elem_of_nil in Hin|].
            by apply list_elem_of_singleton in Hin.
          - destruct Hslp as [->| ->]; [by apply elem_of_nil in Hin|].
            by apply list_elem_of_singleton in Hin. }
        destruct callback as [cb|]; simpl in Hrest.
        - destruct h1 as [|e1 h1]; [done|]. injection Hrest as _ Hrest.
          by destruct (Hno h1 h2).
        - by destruct (Hno h1 h2). }
      rewrite app_nil_r. by apply round_fetched.
Qed.

(** X7: the callback is shown only Munches fetched in this session, the
    latest of each build: none of the Munches [wait] was given, and none
    in state "unknown". *)
Theorem callback_sees_fetched_munches fuel s o h arg h2 m :
  wait fuel = (s, o) →
  trace s = h ++ EvCallback arg :: h2 →
  m ∈ arg →
  ∃ p i, EvGet p i (inr m) ∈ h ∧ last (omap (got i) h) = Some m ∧
         state m ≠ "unknown".
Proof.
  intros Hw Htr Hm. pose proof Hw as [Hr _]%wait_sound.
  destruct (reach_event_ok s Hr _ _ _ Htr) as [_ Harg].
  pose proof (wait_callbacks_fetched fuel) as Hall. rewrite Hw in Hall.
  specialize (Hall _ _ _ Htr). simpl in Hall.
  assert (Some m ∈ Some <$> arg) as Hin by (apply list_elem_of_fmap; eauto).
  rewrite Harg in Hin. apply list_elem_of_fmap in Hin as (i & Hsnap & Hi).
  apply init_keys in Hi. specialize (Hall i Hi).
  symmetry in Hsnap. unfold snapshot in Hsnap.
  destruct (last (omap (got i) h)) as [b|] eqn:Hlast.
  2:{ apply last_None in Hlast. done. }
  injection Hsnap as ->.
  pose proof Hlast as Hin.
  apply last_Some_elem_of, list_elem_of_omap in Hin as (e & Hin & Hgot).
  destruct e as [|p j [|b]| |]; simpl in Hgot; try done.
  destruct (decide (j = i)) as [->|]; [|done]. injection Hgot as ->.
  exists p, i. split_and!; try done.
  intros Hu. apply list_elem_of_split in Hin as (h1 & h3 & ->).
  rewrite <- app_assoc in Htr. simpl in Htr.
  assert (fatal h1 (EvGet p i (inr m)) = Some unknown_exn) as Hf
    by (simpl; by rewrite bool_decide_true).
  pose proof (reach_fatal_last s _ _ _ _ Hr Htr Hf) as Hnil.
  by destruct h3.
Qed.

Lemma wait_round_past_deadline s s' r :
  timeout ≠ 0 → (∀ h, h ≠ [] → terminate ≤ time_time W h) →
  reach s → live (trace s) →
  wait_round terminate s = (s', r) →
  r ≠ inr None ∧ ∃ evs, trace s' = trace s ++ evs ∧ ∀ sec, EvSleep sec ∉ evs.
Proof.
  intros Hnz Hpast Hr Hl. unfold wait_round. run_M.
  destruct (for_each (set_iter (watched s)) refresh s) as [s1 [x|[]]] eqn:Hfor;
    apply for_each_sound in Hfor as (Hst1 & gets & Htr1 & Hgets & Hres);
    try done; try apply set_iter_NoDup; try (intros i; apply elem_of_set_iter).
  { intros [= <- <-]. split; [done|]. exists gets. split; [done|].
    intros sec Hin. rewrite Forall_forall in Hgets. by apply Hgets in Hin. }
  destruct Hres as [Hl1 _].
  assert (reach s1) as Hr1 by by (unfold reach; etrans).
  assert (∀ sec, EvSleep sec ∉ gets ++ callback_events s1) as Hno.
  { intros sec [Hin|Hin]%elem_of_app.
    - rewrite Forall_forall in Hgets. by apply Hgets in Hin.
    - unfold callback_events in Hin. destruct callback; [|by apply elem_of_nil in Hin].
      by apply list_elem_of_singleton in Hin. }
  destruct (run_callback s1) as [s2 [x|[]]] eqn:Hcb;
    apply run_callback_sound in Hcb as (Hst2 & (Htr2 & _ & Hw2 & _) & Hres2);
    try done.
  { intros [= <- <-]. split; [done|]. exists (gets ++ callback_events s1).
    split; [|done]. by rewrite Htr2, Htr1, <- app_assoc. }
  destruct (decide (watched s2 = ∅)) as [He|Hne]; run_M.
  { intros [= <- <-]. split; [done|]. exists (gets ++ callback_events s1).
    split; [|done]. by rewrite Htr2, Htr1, <- app_assoc. }
  unfold check_timeout, time_now. rewrite decide_False by done. run_M.
  rewrite bool_decide_true
    by (apply Hpast; rewrite Htr2, Htr1; pose proof (reach_nonempty s Hr);
        by destruct (trace s)).
  run_M.
  intros [= <- <-]. split; [done|]. simpl.
  exists ((gets ++ callback_events s1) ++ [EvTime (time_time W (trace s2))]).
  split; [by rewrite Htr2, Htr1, <- !app_assoc|].
  intros sec [Hin|Hin]%elem_of_app; [by apply (Hno sec)|].
  by apply list_elem_of_singleton in Hin.
Qed.

(** X4: when the deadline has passed whenever the clock is read again
    ([timeout] not zero), there is one turn of the loop and no sleep;
    [wait] raises if the turn leaves builds to watch.  With a fetch
    capability for every build and a callback that does not raise, it
    returns the Munches if the turn leaves no build to watch, and raises
    [CoprException("Timeouted")] otherwise. *)
Theorem past_deadline_one_turn fuel :
  timeout ≠ 0 → (∀ h, h ≠ [] → time_time W [] + timeout ≤ time_time W h) →
  wait (S fuel) = wait 1 ∧ (wait 1).2 ≠ Running ∧
  (∀ sec, EvSleep sec ∉ trace (wait 1).1) ∧
  (watched (wait 1).1 ≠ ∅ → ∃ x, (wait 1).2 = Raised x) ∧
  ((∀ b, b ∈ builds → ∃ p, capability b p) →
   (∀ cb h arg, callback = Some cb → cb h arg = None) →
   (wait 1).2 = if decide (watched (wait 1).1 = ∅)
                then Returned (dict_values (munches (wait 1).1))
                else Raised timeout_exn).
Proof.
  intros Hnz Hpast. destruct (wait 1) as [s o] eqn:H1. simpl.
  destruct (wait_next 0 entered s o eq_refl H1) as (Hr & Hl & r & Hround & ->).
  pose proof Hround as Hround'.
  apply wait_round_past_deadline in Hround as [Hnone (evs & Htr & Hno)]; try done.
  assert (to_outcome r ≠ Running) as Hnr by (by destruct r as [x|[l|]]).
  assert (∀ sec, EvSleep sec ∉ trace s) as Hnosleep.
  { intros sec. rewrite Htr. simpl. intros [Hin|Hin]%elem_of_cons; [done|].
    by apply (Hno sec). }
  split_and!; try done.
  - replace (S fuel) with (1 + fuel)%nat by lia. by apply wait_mono.
  - intros Hne. destruct r as [x|[l|]]; simpl; eauto; [|done].
    apply wait_round_sound in Hround'
      as (_ & _ & _ & _ & _ & _ & _ & _ & _ & Hend & _); try done.
    by destruct Hend as (_ & ? & _).
  - intros Hcap Hcb. pose proof H1 as [Hrs Hex]%wait_sound.
    assert (∀ x, to_outcome r = Raised x → x = timeout_exn ∧ watched s ≠ ∅)
      as Hraised.
    { intros x Hx. rewrite Hx in Hex. simpl in Hex.
      destruct (capability_raised s x Hcap Hcb Hrs Hex)
        as [(h & t & Hh & Hlast & _ & _ & ->)|(h & Hlast & _)].
      - split; [done|]. by destruct (reach_clock_event s h t Hrs Hlast Hh).
      - destruct (Hnosleep interval). rewrite Hlast. apply elem_of_app.
        right. left. }
    destruct (decide (watched s = ∅)) as [He|Hne].
    + destruct (to_outcome r) as [l|x|] eqn:Ho; [| |done].
      * simpl in Hex. by destruct Hex as (_ & _ & ->).
      * by destruct (Hraised x eq_refl) as [_ ?].
    + destruct (to_outcome r) as [l|x|] eqn:Ho; [| |done].
      * simpl in Hex. by destruct Hex as (_ & ? & _).
      * by destruct (Hraised x eq_refl) as [-> _].
Qed.

(** X5: when none of the builds given can be fetched (none has a proxy
    of its own, and [waitable] has none to fall back on), [wait] raises
    [AttributeError] in its first turn before any fetch. *)
Theorem no_proxy_no_fetch fuel :
  builds ≠ [] →
  (∀ b, b ∈ builds → ∀ p, resolve b ≠ AttrProxy p) →
  wait (S fuel) = (entered, Raised (Exn AttributeError "")).
Proof.
  intros Hne Hnone. rewrite wait_entered. simpl. run_M.
  unfold wait_round. run_M.
  destruct (set_iter (watched entered)) as [|i ids] eqn:Hiter.
  { exfalso. destruct builds as [|b bs] eqn:Hb; [done|].
    assert (id b ∈ set_iter (watched entered)) as Hin.
    { apply elem_of_set_iter. simpl. rewrite Hb. set_solver. }
    rewrite Hiter in Hin. by apply elem_of_nil in Hin. }
  assert (i ∈ watched entered) as Hi
    by (apply elem_of_set_iter; rewrite Hiter; left).
  destruct (reach_watched_key entered i (rtc_refl _ _) Hi) as [cur Hcur].
  simpl. run_M. rewrite (refresh_spec i entered cur Hcur Hi).
  pose proof Hcur as [Hb _]%init_munches_builds.
  destruct (resolve cur) as [| |p] eqn:Hres; try done.
  by destruct (Hnone cur Hb p).
Qed.

Lemma seen_failed_elem h i :
  i ∈ seen_failed h ↔ ∃ p b, EvGet p i (inr b) ∈ h ∧ state b = "failed".
Proof.
  unfold seen_failed. rewrite list_elem_of_omap. split.
  - intros ([]& Hin & Hsome); try done. destruct r as [|b]; try done.
    case_bool_decide as Hst; try done. injection Hsome as ->.
    apply list_elem_of_singleton in Hst. eauto.
  - intros (p & b & Hin & Hst). eexists. split; [done|]. simpl.
    rewrite bool_decide_true; [done|]. by apply list_elem_of_singleton.
Qed.

(** A Munch fetched in a terminal state is among the values of [munches]
    from then on. *)
Lemma terminal_get_in_values s p i b :
  reach s → EvGet p i (inr b) ∈ trace s → terminal (state b) →
  b ∈ dict_values (munches s).
Proof.
  intros Hr (h & h2 & Htr)%list_elem_of_split Hterm.
  pose proof (reach_terminal_final s h p i b h2 Hr Htr Hterm) as Hlater.
  apply (dict_get_values i). rewrite reach_snapshot by done.
  unfold snapshot. rewrite Htr, omap_app. csimpl. rewrite decide_True by done.
  rewrite (omap_got_nil i h2 Hlater). by rewrite last_snoc.
Qed.

Lemma succeeded_Forall l :
  succeeded l = true ↔ Forall (λ b, state b = "succeeded") l.
Proof.
  unfold succeeded. rewrite forallb_forall, Forall_forall.
  split; intros H b Hb.
  - apply list_elem_of_In, H, bool_decide_eq_true in Hb. done.
  - apply bool_decide_eq_true, H, list_elem_of_In. done.
Qed.

(** X9: [succeeded] of what [wait] returns: it holds exactly when the last
    Munch fetched for every id given is in state "succeeded", and then
    no build was put on the [failed] list. *)
Theorem succeeded_of_wait fuel s l :
  wait fuel = (s, Returned l) →
  (succeeded l = true ↔
     ∀ i, i ∈ watched init →
          ∃ m, last (omap (got i) (trace s)) = Some m ∧ state m = "succeeded") ∧
  (succeeded l = true → failed s = []) ∧
  (failed s ≠ [] → succeeded l = false).
Proof.
  intros Hw. destruct (returned_final_munches fuel s l Hw) as (Hvals & Hterm & _).
  pose proof Hw as (Hr & _ & _ & Hl)%wait_sound.
  assert (succeeded l = true → failed s = []) as Hnofail.
  { intros Hs%succeeded_Forall. destruct (failed s) as [|i fs] eqn:Hf; [done|].
    assert (i ∈ failed s) as Hi by (rewrite Hf; left).
    rewrite (reach_failed s Hr) in Hi.
    apply seen_failed_elem in Hi as (p & b & Hin & Hst).
    assert (b ∈ l) as Hb.
    { rewrite Hl. eapply terminal_get_in_values; [done..|].
      unfold terminal. rewrite Hst. set_solver. }
    rewrite Forall_forall in Hs. apply Hs in Hb. congruence. }
  split_and!; [|done|].
  - rewrite succeeded_Forall, Forall_forall. split.
    + intros Hall i Hi%init_keys.
      apply list_elem_of_lookup in Hi as [n Hn].
      assert ((Some <$> l) !! n = Some (last (omap (got i) (trace s)))) as Hln
        by (by rewrite Hvals, list_lookup_fmap, Hn).
      rewrite list_lookup_fmap in Hln.
      destruct (l !! n) as [m|] eqn:Hm; [|done]. injection Hln as Hln.
      exists m. split; [done|]. apply Hall. by eapply list_elem_of_lookup_2.
    + intros Hall m Hm.
      assert (Some m ∈ Some <$> l) as Hin by (apply list_elem_of_fmap; eauto).
      rewrite Hvals in Hin. apply list_elem_of_fmap in Hin as (i & Heq & Hi).
      apply init_keys in Hi. destruct (Hall i Hi) as (m' & Hlast & Hst).
      congruence.
  - intros Hf. destruct (succeeded l) eqn:Hs; [|done]. by destruct Hf; auto.
Qed.

Lemma elem_of_snoc {A} (l : list A) x y : y ∈ l ++ [x] ↔ y ∈ l ∨ y = x.
Proof. rewrite elem_of_app, list_elem_of_singleton. done. Qed.

(** X12: with frontends that hand out every Munch with the proxy it came
    through, as [bind_proxy] makes them, a build is fetched through one
    and the same proxy for the whole session: the one the Munch given
    for it has, or the one of [waitable] when that Munch has none. *)
Theorem one_proxy_per_build fuel s o :
  bound W → wait fuel = (s, o) →
  (∀ p i r, EvGet p i r ∈ trace s →
     ∃ b0, dict_get i (munches init) = Some b0 ∧ b0 ∈ builds ∧
           resolve b0 = AttrProxy p) ∧
  (∀ p p' i r r',
     EvGet p i r ∈ trace s → EvGet p' i r' ∈ trace s → p = p').
Proof.
  intros Hb [Hr _]%wait_sound.
  assert (∀ p i r, EvGet p i r ∈ trace s →
     ∃ b0, dict_get i (munches init) = Some b0 ∧ b0 ∈ builds ∧
           resolve b0 = AttrProxy p) as Hone.
  { induction Hr as [|s1 s2 Hr Hst IH] using reach_induction.
    - simpl. intros p i r Hin. by apply list_elem_of_singleton in Hin.
    - assert (∀ j cur p, dict_get j (munches s1) = Some cur →
                resolve cur = AttrProxy p →
                ∃ b0, dict_get j (munches init) = Some b0 ∧ b0 ∈ builds ∧
                      resolve b0 = AttrProxy p) as Hcur.
      { intros j cur p Hcur Hres. rewrite reach_snapshot in Hcur by done.
        unfold snapshot in Hcur.
        destruct (last (omap (got j) (trace s1))) as [b'|] eqn:Hlast.
        - injection Hcur as ->.
          apply last_Some_elem_of, list_elem_of_omap in Hlast
            as (e & Hin & Hgot).
          destruct e as [|p' j' [|b']| |]; simpl in Hgot; try done.
          destruct (decide (j' = j)) as [->|]; [|done]. injection Hgot as ->.
          pose proof Hin as (h1 & h2 & Htr)%list_elem_of_split.
          destruct (reach_event_ok s1 Hr _ _ _ Htr) as (Hget & _).
          symmetry in Hget. apply Hb in Hget.
          unfold resolve, hasattr_proxy in Hres. rewrite Hget in Hres.
          injection Hres as <-. exact (IH _ _ _ Hin).
        - exists cur. split; [done|]. split; [|done].
          by apply init_munches_builds in Hcur as [? _]. }
      step_cases Hst; simpl; intros p' i r' Hin;
        apply elem_of_snoc in Hin as [Hin|Hin];
        try exact (IH _ _ _ Hin); try done.
      + injection Hin as -> -> ->. exact (Hcur _ _ _ H2 H3).
      + injection Hin as -> -> ->. exact (Hcur _ _ _ H2 H3). }
  split; [done|]. intros p p' i r r' Hin Hin'.
  destruct (Hone p i r Hin) as (b0 & Hb0 & _ & Hres).
  destruct (Hone p' i r' Hin') as (b0' & Hb0' & _ & Hres').
  congruence.
Qed.
End wait.

(** ** A single Munch and the list of it *)






(** ** The theorems at work *)

Lemma own_capability b :
  b ∈ [new_build 1 7; new_build 2 8] →
  ∃ p, capability own two b p ∧
       ∀ h b', proxy_get own h p (id b) = inr b' →
               (2 ≤ S (count_gets (id b) h))%nat → terminal (state b').
Proof.
  intros Hb.
  assert (b = new_build 1 7 ∨ b = new_build 2 8) as [-> | ->] by set_solver.
  - exists 7%nat. split; [split; [reflexivity|]|].
    + intros h. eexists. simpl.
      split_and!; [reflexivity| |reflexivity]. simpl. by case_decide.
    + intros h b'. simpl.
      intros [= <-] Hle. simpl. rewrite decide_False by lia.
      unfold terminal. set_solver.
  - exists 8%nat. split; [split; [reflexivity|]|].
    + intros h. eexists. simpl.
      split_and!; [reflexivity| |reflexivity]. simpl. by case_decide.
    + intros h b'. simpl.
      intros [= <-] Hle. simpl. rewrite decide_False by lia.
      unfold terminal. set_solver.
Qed.

Lemma wait_returns_final_munches_witness :
  ∃ s l,
    (∀ fuel, (2 ≤ fuel)%nat →
       wait own two 0 (Some quiet) 0 fuel = (s, Returned l)) ∧
    l = [Munch 1 "succeeded" (AttrProxy 7); Munch 2 "succeeded" (AttrProxy 8)] ∧
    Forall (λ m, terminal (state m)) l ∧
    (NoDup (id <$> [new_build 1 7; new_build 2 8]) →
       length l = length [new_build 1 7; new_build 2 8] ∧
       Some <$> l = (λ b, last (omap (got (id b)) (trace s)))
                      <$> [new_build 1 7; new_build 2 8]).
Proof.
  destruct (wait_returns_final_munches own two 0 (Some quiet) 0
              [new_build 1 7; new_build 2 8] eq_refl)
    as (_ & _ & Hwithin).
  destruct (Hwithin 2%nat) as (s & l & Hall & Hterm & Hshape).
  - lia.
  - apply own_capability.
  - intros cb h arg Hcb. injection Hcb as <-. reflexivity.
  - left. reflexivity.
  - lia.
  - exists s, l. split; [exact Hall|]. split; [|split; [exact Hterm|exact Hshape]].
    pose proof (Hall 2%nat (le_n 2)) as H2.
    assert ((wait own two 0 (Some quiet) 0 2).2 =
            Returned [Munch 1 "succeeded" (AttrProxy 7);
                      Munch 2 "succeeded" (AttrProxy 8)]) as Hrun
      by (vm_compute; reflexivity).
    rewrite H2 in Hrun. simpl in Hrun. by injection Hrun.
Defined.

Lemma unknown_status_raises_at_once_witness :
  let r := wait lost two 0 None 0 5 in
  ([] : list event) = [] ∧ r.2 = Raised unknown_exn ∧ ∀ l, r.2 ≠ Returned l.
Proof.
  intros r.
  apply (unknown_status_raises_at_once lost two 0 None 0 5 r.1 r.2
           [EvTime 0;
            EvGet 8 2 (inr (Munch 2 "running" (AttrProxy 8)));
            EvGet 7 1 (inr (Munch 1 "running" (AttrProxy 7)));
            EvSleep 0;
            EvGet 8 2 (inr (Munch 2 "running" (AttrProxy 8)))]
           7%nat 1 (Munch 1 "unknown" (AttrProxy 7)) []).
  - vm_compute. reflexivity.
  - vm_compute. reflexivity.
  - reflexivity.
Defined.

Lemma one_capability W :
  (∀ h, proxy_get W h 7%nat 1 = inr (Munch 1 "running" (AttrProxy 7))) →
  ∀ b, b ∈ builds one → ∃ p, capability W one b p.
Proof.
  intros Hget b Hb. apply list_elem_of_singleton in Hb as ->.
  exists 7%nat. split; [reflexivity|]. intros h. eexists.
  split_and!; [apply Hget|done|reflexivity].
Qed.

Lemma slept_count h :
  (∀ sec, EvSleep sec ∈ h → sec = 1) → slept h = Z.of_nat (count_sleeps h).
Proof.
  unfold count_sleeps. induction h as [|e h IH]; intros Hall; [done|].
  assert (slept h = Z.of_nat (length (omap (λ e, match e with
            | EvSleep sec => Some sec | _ => None end) h))) as IH'
    by (apply IH; intros sec ?; apply Hall; by right).
  destruct e as [| | |sec]; csimpl; try done.
  rewrite (Hall sec) by left. rewrite IH'. lia.
Qed.

Lemma timeout_raised_iff_witness :
  let r := wait stuck one 1 (Some quiet) 5 10 in
  r.2 = Raised timeout_exn ∧
  (r.2 = Raised timeout_exn ↔
     5 ≠ 0 ∧ watched r.1 ≠ ∅ ∧
     ∃ h t h2, h ≠ [] ∧ trace r.1 = h ++ EvTime t :: h2 ∧
               5 ≤ t - time_time stuck []) ∧
  (r.2 = Raised timeout_exn →
     ∃ h t, trace r.1 = h ++ callback_events (Some quiet) r.1 ++ [EvTime t] ∧
            t = time_time stuck (h ++ callback_events (Some quiet) r.1)) ∧
  (∀ h sec h2, trace r.1 = h ++ EvSleep sec :: h2 →
     ∃ h0 t, h = h0 ++ [EvTime t] ∧ t = time_time stuck h0 ∧
             t - time_time stuck [] < 5 ∧
             (∀ cb, Some quiet = Some cb → ∃ h' arg, h0 = h' ++ [EvCallback arg])).
Proof.
  intros r.
  destruct (timeout_raised_iff stuck one 1 (Some quiet) 5 10 r.1 r.2)
    as (Hiff & Hlast & _ & _ & _ & Hsleep & Hdead).
  - intros h p i. simpl. discriminate.
  - intros cb h arg Hcb. injection Hcb as <-. discriminate.
  - vm_compute. reflexivity.
  - split; [|split; [exact Hiff|split; [exact Hlast|apply Hsleep; lia]]].
    destruct (Hdead ltac:(lia) 5%nat) as [_ Hraise].
    + intros h Hh Hall. change (5 ≤ slept h - slept []).
      rewrite (slept_count h Hall). simpl. lia.
    + lia.
    + apply Hraise.
      * apply one_capability. reflexivity.
      * intros cb h arg Hcb. injection Hcb as <-. reflexivity.
      * lia.
      * apply (bool_decide_unpack _). vm_compute. exact I.
Defined.

Lemma watched_builds_fetched_once_witness :
  let r1 := wait two_builds two 0 (Some quiet) 0 1 in
  let r2 := wait two_builds two 0 (Some quiet) 0 2 in
  (∃ evs, trace r2.1 = trace r1.1 ++ evs ∧
     omap get_id evs `prefix_of` set_iter (watched r1.1) ∧
     NoDup (omap get_id evs) ∧
     ((∀ x, r2.2 ≠ Raised x) → omap get_id evs ≡ₚ elements (watched r1.1)) ∧
     watched r2.1 ⊆ watched r1.1) ∧
  (1 ∉ watched r2.1 ∧
   (∀ e, e ∈ [EvCallback [Munch 1 "succeeded" (AttrProxy 7);
                          Munch 2 "running" (AttrProxy 8)];
              EvSleep 0;
              EvGet 8 2 (inr (Munch 2 "failed" (AttrProxy 8)));
              EvCallback [Munch 1 "succeeded" (AttrProxy 7);
                          Munch 2 "failed" (AttrProxy 8)]] →
         get_id e ≠ Some 1) ∧
   snapshot two (trace r2.1) 1 = Some (Munch 1 "succeeded" (AttrProxy 7)) ∧
   ∀ l, r2.2 = Returned l → Munch 1 "succeeded" (AttrProxy 7) ∈ l) ∧
  (watched r2.1 ⊆ watched r1.1 ∧ watched r1.1 ⊆ list_to_set (id <$> builds two)).
Proof.
  intros r1 r2.
  destruct (watched_builds_fetched_once two_builds two 0 (Some quiet) 0)
    as (Hround & Hterminal & Hshrink).
  split; [|split].
  - apply (Hround 1%nat r1.1 r2.1 r2.2); vm_compute; reflexivity.
  - apply (Hterminal 2%nat r2.1 r2.2
             [EvTime 0; EvGet 8 2 (inr (Munch 2 "running" (AttrProxy 8)))]
             7%nat 1 (Munch 1 "succeeded" (AttrProxy 7))).
    + vm_compute. reflexivity.
    + vm_compute. reflexivity.
    + apply (bool_decide_unpack _). vm_compute. exact I.
  - apply (Hshrink 1%nat 1%nat).
Defined.

Lemma callback_once_per_round_witness :
  let r1 := wait two_builds two 0 (Some quiet) 0 1 in
  let r2 := wait two_builds two 0 (Some quiet) 0 2 in
  ∃ gets rest,
    trace r2.1 = trace r1.1 ++ gets ++ rest ∧ Forall is_get gets ∧
    ((rest = [] ∧ (∃ x, r2.2 = Raised x) ∧
      ¬ (live two_builds (Some quiet) 0 (trace r1.1 ++ gets) ∧
         omap get_id gets = set_iter (watched r1.1)))
     ∨
     (live two_builds (Some quiet) 0 (trace r1.1 ++ gets) ∧
      omap get_id gets = set_iter (watched r1.1) ∧
      ∃ arg tail,
        rest = EvCallback arg :: tail ∧ round_tail 0 tail ∧
        arg = dict_values (munches r2.1) ∧
        Some <$> arg = snapshot two (trace r1.1 ++ gets)
                         <$> dict_keys (munches (init two)) ∧
        length arg = size (watched (init two)) ∧
        (NoDup (id <$> builds two) → length arg = length (builds two)))).
Proof.
  intros r1 r2.
  apply (callback_once_per_round two_builds two 0 (Some quiet) 0 1 r1.1 r2.1 r2.2 quiet).
  - vm_compute. reflexivity.
  - vm_compute. reflexivity.
  - reflexivity.
Defined.

(** C6 as stated fails: build 1 is fetched "canceled" and the [failed]
    list stays empty. *)
Lemma canceled_is_not_recorded :
  ¬ failure_terminal_recorded (wait called_off two 0 None 0 2).1.
Proof.
  intros H.
  specialize (H 7%nat 1 (Munch 1 "canceled" (AttrProxy 7))).
  assert (1 ∈ failed (wait called_off two 0 None 0 2).1) as Hin.
  { apply H.
    - apply (bool_decide_unpack _). vm_compute. exact I.
    - apply (bool_decide_unpack _). vm_compute. exact I. }
  vm_compute in Hin. by apply elem_of_nil in Hin.
Qed.

Lemma failed_list_records_failed_witness :
  let s := (wait two_builds two 0 (Some quiet) 0 2).1 in
  failed s = [2] ∧ (2 ∈ failed s ↔
    ∃ p b, EvGet p 2 (inr b) ∈ trace s ∧ state b = "failed").
Proof.
  intros s.
  destruct (failed_list_records_failed two_builds two 0 (Some quiet) 0 2)
    as (Hlist & Hiff & _).
  split; [exact Hlist|exact (Hiff 2)].
Defined.

Lemma fetch_through_own_proxy_witness :
  let r := wait bare one 0 None 0 2 in
  let h := [EvTime 0; EvGet 7 1 (inr (Munch 1 "running" NoAttr)); EvSleep 0] in
  ∃ cur, snapshot one h 1 = Some cur ∧
    (hasattr_proxy cur = true → __proxy__ cur = AttrProxy 7) ∧
    (hasattr_proxy cur = false →
       __proxy__ cur = NoAttr ∧ waitable_proxy one = AttrProxy 7) ∧
    inr (Munch 1 "running" NoAttr) = proxy_get bare h 7%nat 1.
Proof.
  intros r h.
  apply (fetch_through_own_proxy bare one 0 None 0 2 r.1 r.2 h 7%nat 1
           (inr (Munch 1 "running" NoAttr)) [EvSleep 0]).
  - vm_compute. reflexivity.
  - vm_compute. reflexivity.
Defined.

(** C8 as stated fails: the session that ends on an "unknown" state and
    the session that ends on the deadline raise the same class. *)
Lemma failure_kinds_coincide :
  ¬ failure_kinds_differ (wait lost two 0 None 0 5).2
                         (wait stuck one 1 (Some quiet) 5 10).2.
Proof.
  intros H. apply (H unknown_exn timeout_exn).
  - vm_compute. reflexivity.
  - vm_compute. reflexivity.
  - reflexivity.
Qed.

Lemma failures_are_CoprException_witness :
  let r := wait stuck one 1 (Some quiet) 5 10 in
  r.2 = Raised (Exn CoprException "Timeouted").
Proof.
  intros r.
  destruct (failures_are_CoprException stuck one 1 (Some quiet) 5 10 r.1 r.2)
    as (_ & Htimeout & _).
  - vm_compute. reflexivity.
  - apply (Htimeout (removelast (trace r.1)) 5).
    + vm_compute. discriminate.
    + vm_compute. reflexivity.
    + vm_compute. discriminate.
Defined.



Lemma wait_empty_list_witness :
  wait stuck (PlainList []) (-1) (Some quiet) 5 1 =
    ({| watched := ∅; munches := []; failed := [];
        trace := [EvTime 0; EvCallback []] |}, Returned []).
Proof.
  apply (wait_empty_list stuck (PlainList []) (-1) (Some quiet) 5 0).
  - reflexivity.
  - intros cb Hcb. injection Hcb as <-. reflexivity.
Defined.

(** The scenario of the two builds: build 1 succeeds at once, build 2
    fails at its second fetch; the list returned is in the order given
    and is not all "succeeded". *)
Example scenario_two_builds :
  let r := wait two_builds two 0 None 0 2 in
  r.2 = Returned [Munch 1 "succeeded" (AttrProxy 7);
                  Munch 2 "failed" (AttrProxy 8)] ∧
  failed r.1 = [2] ∧
  succeeded [Munch 1 "succeeded" (AttrProxy 7);
             Munch 2 "failed" (AttrProxy 8)] = false.
Proof. vm_compute. done. Qed.

(** The scenario of the build that stays "running" with [timeout=5] and
    [interval=1]: the callback is called in each of the six turns, the
    clock is read at 0, 1, ..., 5 and the last reading ends the wait. *)
Example scenario_stuck :
  let r := wait stuck one 1 (Some quiet) 5 10 in
  r.2 = Raised timeout_exn ∧
  length (omap (λ e, match e with EvCallback arg => Some arg | _ => None end)
            (trace r.1)) = 6%nat ∧
  omap (λ e, match e with EvTime t => Some t | _ => None end) (trace r.1)
    = [0; 0; 1; 2; 3; 4; 5].
Proof. vm_compute. done. Qed.

(** ** [bind_proxy] and [for_all_methods] *)

Lemma bind_proxy_munch {A} (func : method A) self args m :
  bind_proxy func self args = inr (VMunch m) →
  __proxy__ m = AttrProxy self ∧
  ∃ m0, func self args = inr (VMunch m0) ∧ id m = id m0 ∧ state m = state m0.
Proof.
  unfold bind_proxy. destruct (func self args) as [e|[m0|l|r]]; simpl; try done.
  intros [= <-]. simpl. eauto.
Qed.

Lemma decorated_own {A} (cls : pyclass A) name :
  own_dict (for_all_methods bind_proxy cls) !! name =
    (λ m, match getattr_callable m with
          | Some f => Function (bind_proxy f)
          | None => m
          end) <$> own_dict cls !! name.
Proof. unfold for_all_methods. simpl. by rewrite lookup_fmap. Qed.

(** A call of an attribute of the class's own that the decorator wrapped,
    on an instance that has no attribute of that name. *)
Lemma decorated_call {A} (cls : pyclass A) attrs name self args f :
  own_dict cls !! name ≫= getattr_callable = Some f → attrs !! name = None →
  call_method (for_all_methods bind_proxy cls) attrs name self args
    = bind_proxy f self args.
Proof.
  intros Hf Hattrs. unfold call_method, mro_lookup.
  rewrite decorated_own, Hattrs.
  destruct (own_dict cls !! name) as [m|]; [|done]. simpl in *. by rewrite Hf.
Qed.

(** X10: what a method wrapped by [bind_proxy] gives back: a Munch or a
    [List] comes back with [__proxy__] set to the proxy the method was
    called on, whatever it was before, and is otherwise what the method
    gave; anything else, and any exception, comes back as it is.
    Wrapping twice changes nothing. *)
Theorem bind_proxy_binds {A} (func : method A) self args :
  (∀ v, bind_proxy func self args = inr v →
     match v with
     | VMunch m =>
         __proxy__ m = AttrProxy self ∧
         ∃ m0, func self args = inr (VMunch m0) ∧
               id m = id m0 ∧ state m = state m0
     | VList l =>
         List_proxy l = AttrProxy self ∧
         ∃ l0, func self args = inr (VList l0) ∧ items l = items l0
     | VOther r => func self args = inr (VOther r)
     end) ∧
  (∀ e, bind_proxy func self args = inl e ↔ func self args = inl e) ∧
  bind_proxy (bind_proxy func) self args = bind_proxy func self args.
Proof.
  unfold bind_proxy. destruct (func self args) as [e|[m|l|r]]; simpl.
  - split_and!; try done. 
  - split_and!; try done. intros v [= <-]. simpl. eauto.
  - split_and!; try done. intros v [= <-]. simpl. eauto.
  - split_and!; try done. by intros v [= <-].
Qed.

(** X11: what [for_all_methods(bind_proxy)] does to a class.  The
    attributes of the class's own [__dict__] that are callable are
    replaced by plain functions, the wrappers; the others, and the base
    classes, are untouched.  On an instance without an attribute of its
    own under the name, calling a wrapped attribute is calling the
    wrapper with the instance before the arguments: a Munch it gives
    back has the instance as its [__proxy__]; for a static or class
    method, or a nested class, which was called with the arguments
    alone, that is another call than before.  An attribute that is
    inherited, missing, or hidden by an attribute of the instance is
    called as it was before, unwrapped. *)
Theorem decorated_class_binds {A} (cls : pyclass A)
    (attrs : gmap string (A → exn + value)) name self args :
  let cls' := for_all_methods bind_proxy cls in
  (dom (own_dict cls') = dom (own_dict cls) ∧ inherited cls' = inherited cls) ∧
  (∀ m, own_dict cls !! name = Some m →
        own_dict cls' !! name =
          Some (match getattr_callable m with
                | Some f => Function (bind_proxy f)
                | None => m
                end)) ∧
  (attrs !! name = None →
   call_method cls' attrs name self args =
     match own_dict cls !! name ≫= getattr_callable with
     | Some f => bind_proxy f self args
     | None => call_method cls attrs name self args
     end) ∧
  (∀ direct shifted,
     own_dict cls !! name = Some (NonBinding direct shifted) →
     attrs !! name = None →
     call_method cls attrs name self args = direct args ∧
     call_method cls' attrs name self args = bind_proxy shifted self args) ∧
  (is_Some (attrs !! name) →
   call_method cls' attrs name self args = call_method cls attrs name self args) ∧
  (∀ f m,
     own_dict cls !! name ≫= getattr_callable = Some f → attrs !! name = None →
     call_method cls' attrs name self args = inr (VMunch m) →
     __proxy__ m = AttrProxy self ∧
     ∃ m0, f self args = inr (VMunch m0) ∧ id m = id m0 ∧ state m = state m0).
Proof.
  intros cls'. unfold cls'. split_and!.
  - unfold for_all_methods. simpl. apply dom_fmap_L.
  - done.
  - intros m Hm. by rewrite decorated_own, Hm.
  - intros Hattrs.
    destruct (own_dict cls !! name ≫= getattr_callable) as [f|] eqn:Hf.
    { by apply decorated_call. }
    unfold call_method, mro_lookup. rewrite decorated_own, Hattrs.
    destruct (own_dict cls !! name) as [[f|d sh|data call]|]; simpl in *; done.
  - intros direct shifted Hm Hattrs. split.
    + unfold call_method, mro_lookup. by rewrite Hm, Hattrs.
    + apply decorated_call; [|done]. by rewrite Hm.
  - intros [g Hg]. unfold call_method, mro_lookup. rewrite decorated_own, Hg.
    by destruct (own_dict cls !! name) as [[f|d sh|[] call]|].
  - intros f m Hf Hattrs. rewrite (decorated_call cls attrs name self args f Hf Hattrs).
    apply bind_proxy_munch.
Qed.


(** ** [succeeded] *)

(** X13: [succeeded] holds of a Munch or of a plain list exactly when
    every build is in state "succeeded" (so it holds of the empty list);
    a Munch and the list of it are judged alike; of a [List], which
    [wait] accepts, it raises [AttributeError], whatever its items. *)
Theorem succeeded_call_spec w :
  (succeeded_call w = inr true ↔
     (∀ l, w ≠ ListObj l) ∧ Forall (λ b, state b = "succeeded") (builds w)) ∧
  (succeeded_call w = inr false ↔
     (∀ l, w ≠ ListObj l) ∧ Exists (λ b, state b ≠ "succeeded") (builds w)) ∧
  (succeeded_call w = inl (Exn AttributeError "") ↔ ∃ l, w = ListObj l) ∧
  (∀ m, succeeded_call (OneMunch m) = succeeded_call (PlainList [m])).
Proof.
  assert (∀ l, succeeded l = false ↔ Exists (λ b, state b ≠ "succeeded") l) as Hfalse.
  { intros l. rewrite <- not_true_iff_false, succeeded_Forall. split.
    - intros Hn. by apply not_Forall_Exists in Hn; [|apply _].
    - intros Hex. by apply Exists_not_Forall. }
  assert (∀ l b, (inr (succeeded l) : exn + bool) = inr b ↔ succeeded l = b)
    as Hinr by (intros; split; congruence).
  destruct w as [m|l|l]; cbn [succeeded_call builds]; split_and!; try done.
  - rewrite Hinr, succeeded_Forall. naive_solver.
  - rewrite Hinr, Hfalse. naive_solver.
  - split; [done|by intros [? ?]].
  - rewrite Hinr, succeeded_Forall. naive_solver.
  - rewrite Hinr, Hfalse. naive_solver.
  - split; [done|by intros [? ?]].
  - split; [done|]. intros [Hl _]. by destruct (Hl l).
  - split; [done|]. intros [Hl _]. by destruct (Hl l).
  - split; [eauto|done].
Qed.

(** ** [config_from_file] *)

Lemma section_get_error sec o e :
  section_get sec o = inl e → exn_cls e = OtherError "configparser.Error".
Proof. unfold section_get. destruct (sec o) as [[msg|v]|]; by intros [= <-]. Qed.

Lemma convert_to_boolean_error v e :
  convert_to_boolean v = inl e → e = Exn ValueError ("Not a boolean: " +:+ v).
Proof.
  unfold convert_to_boolean.
  destruct (list_find _ BOOLEAN_STATES) as [[? [? ?]]|]; by intros [= <-].
Qed.

Lemma section_getboolean_error sec o fallback e :
  section_getboolean sec o fallback = inl e →
  exn_cls e = OtherError "configparser.Error" ∨
  ∃ v, sec o = Some (inr v) ∧ e = Exn ValueError ("Not a boolean: " +:+ v).
Proof.
  unfold section_getboolean. destruct (sec o) as [[msg|v]|]; try done.
  - intros [= <-]. by left.
  - intros ->%convert_to_boolean_error. right. eauto.
Qed.

Lemma read_fields_ok secs c :
  read_fields secs = inr c →
  ∃ sec, secs "copr-cli" = Some sec ∧
    section_get sec "username" = inr (username c) ∧
    section_get sec "login" = inr (login c) ∧
    section_get sec "token" = inr (token c) ∧
    section_get sec "copr_url" = inr (copr_url c) ∧
    section_getboolean sec "encrypted" true = inr (encrypted c) ∧
    section_getboolean sec "gssapi" false = inr (gssapi c).
Proof.
  unfold read_fields. destruct (secs "copr-cli") as [sec|]; [|done].
  destruct (section_get sec "username") as [|u] eqn:H1; [done|].
  destruct (section_get sec "login") as [|l] eqn:H2; [done|].
  destruct (section_get sec "token") as [|t] eqn:H3; [done|].
  destruct (section_get sec "copr_url") as [|url] eqn:H4; [done|].
  destruct (section_get sec "gssapi") as [|g0] eqn:H5; [done|].
  destruct (section_getboolean sec "encrypted" true) as [|e] eqn:H6; [done|].
  destruct (section_getboolean sec "gssapi" false) as [|g] eqn:H7; [done|].
  simpl. intros [= <-]. by exists sec.
Qed.

Lemma read_fields_error secs e :
  read_fields secs = inl e →
  (secs "copr-cli" = None ∧ e = Exn KeyError "") ∨
  (∃ sec, secs "copr-cli" = Some sec ∧
     (exn_cls e = OtherError "configparser.Error" ∨
      ∃ o v, o ∈ ["encrypted"; "gssapi"] ∧ sec o = Some (inr v) ∧
             e = Exn ValueError ("Not a boolean: " +:+ v))).
Proof.
  unfold read_fields. destruct (secs "copr-cli") as [sec|]; [|intros [= <-]; by left].
  intros He. right. exists sec. split; [done|]. revert He.
  destruct (section_get sec "username") as [|u] eqn:H1;
    [intros [= <-]; left; by eapply section_get_error|].
  destruct (section_get sec "login") as [|l] eqn:H2;
    [intros [= <-]; left; by eapply section_get_error|].
  destruct (section_get sec "token") as [|t] eqn:H3;
    [intros [= <-]; left; by eapply section_get_error|].
  destruct (section_get sec "copr_url") as [|url] eqn:H4;
    [intros [= <-]; left; by eapply section_get_error|].
  destruct (section_get sec "gssapi") as [|g0] eqn:H5;
    [intros [= <-]; left; by eapply section_get_error|].
  destruct (section_getboolean sec "encrypted" true) as [x|enc] eqn:H6.
  { intros [= <-]. apply section_getboolean_error in H6 as [?|(v & ? & ?)]; [by left|].
    right. exists "encrypted", v. split_and!; try done. set_solver. }
  destruct (section_getboolean sec "gssapi" false) as [x|g] eqn:H7; [|done].
  intros [= <-]. apply section_getboolean_error in H7 as [?|(v & ? & ?)]; [by left|].
  right. exists "gssapi", v. split_and!; try done. set_solver.
Qed.

Lemma encrypted_url_checked read c :
  config_from_file read = inr c → encrypted c = true →
  ∃ url, copr_url c = Some url ∧ startswith url "http://" = false.
Proof.
  unfold config_from_file. intros Hc Henc.
  assert (∀ secs, match read_fields secs with
      | inl e =>
          if decide (exn_cls e = OtherError "configparser.Error")
          then inl (CoprConfigException ("Bad configuration file: " +:+ exn_msg e))
          else inl e
      | inr config =>
          if encrypted config then
            match copr_url config with
            | None => inl (Exn AttributeError "")
            | Some url =>
                if startswith url "http://"
                then inl (CoprConfigException
                  "The `copr_url` should not be http, please obtain an up-to-date configuration from the Copr website")
                else inr config
            end
          else inr config
      end = inr c →
      ∃ url, copr_url c = Some url ∧ startswith url "http://" = false) as Hgen.
  { intros secs. destruct (read_fields secs) as [e|c']; [by case_decide|].
    destruct (encrypted c') eqn:He; [|intros [= ->]; congruence].
    destruct (copr_url c') as [url|] eqn:Hu; [|done].
    destruct (startswith url "http://") eqn:Hs; [done|].
    intros [= <-]. eauto. }
  destruct read as [msg| |secs]; [done|by eapply Hgen..].
Qed.

(** X14: a configuration that [config_from_file] returns is the fields
    of the section [copr-cli], of the file or of the defaults, as they
    were read: the check changes nothing.  With [encrypted] on it has a
    [copr_url], and that does not begin with "http://". *)
Theorem accepted_encrypted_not_http read c :
  config_from_file read = inr c →
  read_fields (match read with
               | ReadFile sections => sections
               | _ => default_sections
               end) = inr c ∧
  (encrypted c = true →
   ∃ url, copr_url c = Some url ∧ startswith url "http://" = false).
Proof.
  intros Hc. split; [|by apply (encrypted_url_checked read)].
  unfold config_from_file in Hc.
  assert (∀ c0 : config,
    (if encrypted c0 then
       match copr_url c0 with
       | None => inl (Exn AttributeError "")
       | Some url =>
           if startswith url "http://"
           then inl (CoprConfigException
             "The `copr_url` should not be http, please obtain an up-to-date configuration from the Copr website")
           else inr c0
       end
     else inr c0) = inr c → c0 = c) as Hsame.
  { intros c0. destruct (encrypted c0); [|congruence].
    destruct (copr_url c0) as [url|]; [|done].
    destruct (startswith url "http://"); [done|congruence]. }
  destruct read as [msg| |secs]; [done| |].
  - destruct (read_fields default_sections) as [e|c0]; [by case_decide|].
    by rewrite (Hsame c0 Hc).
  - destruct (read_fields secs) as [e|c0]; [by case_decide|].
    by rewrite (Hsame c0 Hc).
Qed.

(** X15: the exceptions of [config_from_file].  It raises
    [CoprConfigException], [KeyError], [ValueError] or [AttributeError],
    nothing else.  [KeyError] is what a file without a section
    [copr-cli] gives, and only that; [ValueError] is what an [encrypted]
    or [gssapi] that does not read as a boolean gives, with the value in
    its message; neither is turned into [CoprConfigException], which an
    error of [read] is, with its message. *)
Theorem config_from_file_exceptions read x :
  config_from_file read = inl x →
  exn_cls x ∈ [OtherError "CoprConfigException"; KeyError; ValueError;
               AttributeError] ∧
  (exn_cls x = KeyError ↔ ∃ secs, read = ReadFile secs ∧ secs "copr-cli" = None) ∧
  (exn_cls x = ValueError →
     ∃ secs sec o v, read = ReadFile secs ∧ secs "copr-cli" = Some sec ∧
       o ∈ ["encrypted"; "gssapi"] ∧ sec o = Some (inr v) ∧
       x = Exn ValueError ("Not a boolean: " +:+ v)) ∧
  (∀ msg, read = ReadError msg → x = CoprConfigException msg).
Proof.
  unfold config_from_file.
  set (after := λ secs : string → option section_view,
    match read_fields secs with
    | inl e =>
        if decide (exn_cls e = OtherError "configparser.Error")
        then inl (CoprConfigException ("Bad configuration file: " +:+ exn_msg e))
        else inl e
    | inr config =>
        if encrypted config then
          match copr_url config with
          | None => inl (Exn AttributeError "")
          | Some url =>
              if startswith url "http://"
              then inl (CoprConfigException
                "The `copr_url` should not be http, please obtain an up-to-date configuration from the Copr website")
              else inr config
          end
        else inr config
    end).
  assert (∀ secs, after secs = inl x →
    exn_cls x ∈ [OtherError "CoprConfigException"; KeyError; ValueError;
                 AttributeError] ∧
    (exn_cls x = KeyError ↔ secs "copr-cli" = None) ∧
    (exn_cls x = ValueError →
       ∃ sec o v, secs "copr-cli" = Some sec ∧
         o ∈ ["encrypted"; "gssapi"] ∧ sec o = Some (inr v) ∧
         x = Exn ValueError ("Not a boolean: " +:+ v))) as Hafter.
  { intros secs. unfold after.
    destruct (read_fields secs) as [e|c] eqn:Hf.
    - apply read_fields_error in Hf
        as [[Hnone ->]|(sec & Hsec & [Hcls|(o & v & Ho & Hv & ->)])].
      + simpl. intros [= <-]. simpl. split_and!; [set_solver|done|done].
      + rewrite decide_True by done. intros [= <-]. simpl.
        split_and!; [set_solver| |done]. split; [done|congruence].
      + simpl. intros [= <-]. simpl. split_and!; [set_solver| |].
        * split; [done|congruence].
        * intros _. by exists sec, o, v.
    - apply read_fields_ok in Hf as (sec & Hsec & _).
      destruct (encrypted c); [|done].
      destruct (copr_url c) as [url|].
      + destruct (startswith url "http://"); [|done].
        intros [= <-]. simpl. split_and!; [set_solver| |done].
        split; [done|congruence].
      + intros [= <-]. simpl. split_and!; [set_solver| |done].
        split; [done|congruence]. }
  destruct read as [msg| |secs].
  - intros [= <-]. simpl. split_and!; [set_solver| |done|by intros ? [= ->]].
    split; [done|by intros (? & ? & _)].
  - fold (after default_sections). intros Hx.
    destruct (Hafter _ Hx) as (Hcls & Hkey & Hval). split_and!.
    + done.
    + split; [|by intros (? & ? & _)]. by intros ?%Hkey.
    + intros (? & ? & ? & ? & _)%Hval. done.
    + done.
  - fold (after secs). intros Hx.
    destruct (Hafter _ Hx) as (Hcls & Hkey & Hval). split_and!.
    + done.
    + rewrite Hkey. split; [eauto|]. by intros (? & [= <-] & ?).
    + intros (sec & o & v & ?)%Hval. by exists secs, sec, o, v.
    + done.
Qed.

Lemma convert_to_boolean_spec v :
  (convert_to_boolean v = inr true ↔ lower v ∈ ["1"; "yes"; "true"; "on"]) ∧
  (convert_to_boolean v = inr false ↔ lower v ∈ ["0"; "no"; "false"; "off"]).
Proof.
  unfold convert_to_boolean. generalize (lower v). intros w. simpl.
  repeat (case_decide; [subst w; split; split; intros; first [done|set_solver]|]).
  split; split; intros; first [done|set_solver].
Qed.

Lemma section_get_plain sec o :
  (∀ o msg, sec o ≠ Some (inl msg)) → section_get sec o = inr (plain_value sec o).
Proof.
  intros Hp. unfold section_get, plain_value.
  destruct (sec o) as [[msg|v]|] eqn:Ho; try done. by destruct (Hp o msg).
Qed.

Lemma read_fields_plain secs sec e g :
  secs "copr-cli" = Some sec → (∀ o msg, sec o ≠ Some (inl msg)) →
  section_getboolean sec "encrypted" true = inr e →
  section_getboolean sec "gssapi" false = inr g →
  read_fields secs =
    inr (Config (plain_value sec "username") (plain_value sec "login")
           (plain_value sec "token") (plain_value sec "copr_url") g e).
Proof.
  intros Hsec Hp He Hg. unfold read_fields. rewrite Hsec.
  rewrite !section_get_plain by done. simpl. rewrite He. simpl. by rewrite Hg.
Qed.

(** X16: a section [copr-cli] without [copr_url].  With [encrypted] on,
    as it is when it is not set, [config_from_file] raises
    [AttributeError], not [CoprConfigException]; with [encrypted] off it
    returns a configuration without a [copr_url]. *)
Theorem missing_copr_url secs sec e g :
  secs "copr-cli" = Some sec → (∀ o msg, sec o ≠ Some (inl msg)) →
  sec "copr_url" = None →
  section_getboolean sec "encrypted" true = inr e →
  section_getboolean sec "gssapi" false = inr g →
  config_from_file (ReadFile secs) =
    (if e then inl (Exn AttributeError "")
     else inr (Config (plain_value sec "username") (plain_value sec "login")
                 (plain_value sec "token") None g false)) ∧
  (sec "encrypted" = None → e = true).
Proof.
  intros Hsec Hp Hurl He Hg. split.
  - unfold config_from_file.
    rewrite (read_fields_plain secs sec e g) by done.
    assert (plain_value sec "copr_url" = None) as ->
      by (unfold plain_value; by rewrite Hurl).
    by destruct e.
  - intros Hnone. unfold section_getboolean in He. rewrite Hnone in He. congruence.
Qed.

(** X17: [encrypted] set to a word that reads as false (0, no, false,
    off, in any letter case) switches the check of [copr_url] off: the
    configuration is returned with the [copr_url] of the file, be it
    "http://..." or missing. *)
Theorem encrypted_off_accepts_any_url secs sec v g :
  secs "copr-cli" = Some sec → (∀ o msg, sec o ≠ Some (inl msg)) →
  sec "encrypted" = Some (inr v) → lower v ∈ ["0"; "no"; "false"; "off"] →
  section_getboolean sec "gssapi" false = inr g →
  config_from_file (ReadFile secs) =
    inr (Config (plain_value sec "username") (plain_value sec "login")
           (plain_value sec "token") (plain_value sec "copr_url") g false).
Proof.
  intros Hsec Hp Henc Hv Hg. unfold config_from_file.
  rewrite (read_fields_plain secs sec false g); try done.
  unfold section_getboolean. rewrite Henc. by apply convert_to_boolean_spec.
Qed.

(** X18: the defaults.  A section [copr-cli] that sets [copr_url], not
    to "http://...", and nothing else gives a configuration without
    credentials, with [gssapi] off and [encrypted] on; when no file was
    read, that is the configuration, with the public instance for
    [copr_url]. *)
Theorem config_defaults u :
  startswith u "http://" = false →
  config_from_file
    (ReadFile (λ name, if decide (name = "copr-cli")
                       then Some (λ o, if decide (o = "copr_url")
                                       then Some (inr u) else None)
                       else None))
    = inr (Config None None None (Some u) false true) ∧
  config_from_file ReadNothing
    = inr (Config None None None (Some "https://copr.fedorainfracloud.org")
             false true).
Proof.
  intros Hu. split; [|by vm_compute].
  unfold config_from_file, read_fields. rewrite decide_True by done.
  unfold section_get, section_getboolean.
  repeat (rewrite decide_False by done). rewrite decide_True by done.
  simpl. repeat (rewrite decide_False by done). simpl. by rewrite Hu.
Qed.

(** ** [get_session_cookie] *)

Lemma prefix_app_strict pre u t :
  String.prefix pre u = false → String.prefix pre (u +:+ t) = true →
  ∃ rest, pre = u +:+ rest ∧ rest ≠ "" ∧ String.prefix rest t = true.
Proof.
  revert pre. induction u as [|c u IH]; intros pre Hno Hyes; simpl in *.
  - exists pre. split_and!; try done. by intros ->.
  - destruct pre as [|a pre]; [done|].
    destruct (Ascii.ascii_dec a c) as [->|]; [|done].
    destruct (IH pre Hno Hyes) as (rest & -> & Hne & Hrest). by exists rest.
Qed.

(** X19: the address [get_session_cookie] asks, for a configuration that
    [config_from_file] returned with [encrypted] on: it is the
    [copr_url] followed by "/api_v3/gssapi_login/", the answer given
    there alone decides the result, and the address does not begin with
    "http://", except for the one [copr_url] "http:/", which the check
    of [config_from_file] lets through. *)
Theorem login_url_not_http read c :
  config_from_file read = inr c → encrypted c = true →
  ∃ u, copr_url c = Some u ∧
       login_url c = inr (u +:+ "/api_v3/gssapi_login/") ∧
       (∀ get1 get2,
          get1 (u +:+ "/api_v3/gssapi_login/") = get2 (u +:+ "/api_v3/gssapi_login/") →
          get_session_cookie get1 c = get_session_cookie get2 c) ∧
       (∀ get cookies,
          get (u +:+ "/api_v3/gssapi_login/") = Response cookies →
          get_session_cookie get c = inr (cookies "session")) ∧
       (startswith (u +:+ "/api_v3/gssapi_login/") "http://" = true ↔ u = "http:/").
Proof.
  intros Hc Henc.
  destruct (encrypted_url_checked read c Hc Henc) as (u & Hu & Hno).
  exists u. unfold get_session_cookie, login_url. rewrite Hu.
  split; [done|]. split; [done|]. split; [|split].
  - intros get1 get2 Heq. simpl. by rewrite Heq.
  - intros get cookies Hget. simpl. by rewrite Hget.
  - unfold startswith in *. split; [|by intros ->].
    intros Hyes.
    destruct (prefix_app_strict _ _ _ Hno Hyes) as (rest & Hsplit & Hne & Hrest).
    clear Hno Hyes.
    do 7 (destruct u as [|? u];
          cbv [String.append] in Hsplit; fold String.append in Hsplit;
          [subst rest; first [done | by vm_compute in Hrest]
          |injection Hsplit as <- Hsplit]).
    destruct u; cbv [String.append] in Hsplit; [by subst rest|done].
Qed.

(** ** The further theorems at work *)

Lemma plain_section_plain opts o msg : plain_section opts o ≠ Some (inl msg).
Proof.
  induction opts as [|[k v] opts IH]; simpl; [done|]. by case_decide.
Qed.

Lemma callee_exceptions_propagate_witness :
  let r := wait unreachable two 0 None 0 3 in
  ([] : list event) = [] ∧
  r.2 = Raised (Exn (OtherError "CoprRequestException") "Unable to connect") ∧
  proxy_get unreachable [EvTime 0] 8 2
    = inl (Exn (OtherError "CoprRequestException") "Unable to connect").
Proof.
  intros r.
  destruct (callee_exceptions_propagate unreachable two 0 None 0 3 r.1 r.2)
    as [Hget _].
  - vm_compute. reflexivity.
  - apply (Hget [EvTime 0] 8%nat 2
             (Exn (OtherError "CoprRequestException") "Unable to connect") []).
    vm_compute. reflexivity.
Defined.

Lemma negative_interval_one_turn_witness :
  wait stuck one (-1) None 0 6 = wait stuck one (-1) None 0 1 ∧
  (wait stuck one (-1) None 0 1).2 ≠ Running ∧
  (∀ h sec h2,
     trace (wait stuck one (-1) None 0 1).1 = h ++ EvSleep sec :: h2 →
     h2 = [] ∧
     (wait stuck one (-1) None 0 1).2
       = Raised (Exn ValueError "sleep length must be non-negative")).
Proof. apply (negative_interval_one_turn stuck one (-1) None 0 5). lia. Defined.

Lemma no_timeout_clock_read_once_witness : ([] : list event) = [].
Proof.
  pose (r := wait two_builds two 0 (Some quiet) 0 2).
  apply (no_timeout_clock_read_once two_builds two 0 (Some quiet) 0 2 r.1 r.2
           [] 0 (tail (trace r.1))).
  - reflexivity.
  - vm_compute. reflexivity.
  - vm_compute. reflexivity.
Defined.

Lemma past_deadline_one_turn_witness :
  wait late one 1 None 60 4 = wait late one 1 None 60 1 ∧
  (wait late one 1 None 60 1).2 ≠ Running ∧
  (∀ sec, EvSleep sec ∉ trace (wait late one 1 None 60 1).1) ∧
  (watched (wait late one 1 None 60 1).1 ≠ ∅ →
     ∃ x, (wait late one 1 None 60 1).2 = Raised x) ∧
  (wait late one 1 None 60 1).2 =
    (if decide (watched (wait late one 1 None 60 1).1 = ∅)
     then Returned (dict_values (munches (wait late one 1 None 60 1).1))
     else Raised timeout_exn) ∧
  (wait late one 1 None 60 1).2 = Raised timeout_exn.
Proof.
  destruct (past_deadline_one_turn late one 1 None 60 3)
    as (Hone & Hend & Hsleep & Hleft & Hout).
  - lia.
  - intros h Hh. destruct h; [done|]. simpl. lia.
  - split_and!; [exact Hone|exact Hend|exact Hsleep|exact Hleft| |].
    + apply Hout; [|done]. apply one_capability. reflexivity.
    + vm_compute. reflexivity.
Defined.

Lemma no_proxy_no_fetch_witness :
  wait stuck orphans 0 None 0 5
    = (entered stuck orphans, Raised (Exn AttributeError "")).
Proof.
  apply (no_proxy_no_fetch stuck orphans 0 None 0 4).
  - discriminate.
  - intros b Hb p. unfold orphans in Hb. simpl in Hb.
    apply elem_of_cons in Hb as [->|Hb]; [discriminate|].
    apply elem_of_cons in Hb as [->|Hb]; [discriminate|].
    by apply elem_of_nil in Hb.
Defined.

Lemma callback_sees_fetched_munches_witness :
  ∃ p i,
    EvGet p i (inr (Munch 1 "succeeded" (AttrProxy 7)))
      ∈ [EvTime 0;
         EvGet 8 2 (inr (Munch 2 "running" (AttrProxy 8)));
         EvGet 7 1 (inr (Munch 1 "succeeded" (AttrProxy 7)))] ∧
    last (omap (got i)
            [EvTime 0;
             EvGet 8 2 (inr (Munch 2 "running" (AttrProxy 8)));
             EvGet 7 1 (inr (Munch 1 "succeeded" (AttrProxy 7)))])
      = Some (Munch 1 "succeeded" (AttrProxy 7)) ∧
    state (Munch 1 "succeeded" (AttrProxy 7)) ≠ "unknown".
Proof.
  pose (r := wait two_builds two 0 (Some quiet) 0 1).
  apply (callback_sees_fetched_munches two_builds two 0 (Some quiet) 0 1 r.1 r.2
           [EvTime 0;
            EvGet 8 2 (inr (Munch 2 "running" (AttrProxy 8)));
            EvGet 7 1 (inr (Munch 1 "succeeded" (AttrProxy 7)))]
           [Munch 1 "succeeded" (AttrProxy 7); Munch 2 "running" (AttrProxy 8)]
           [EvSleep 0]).
  - vm_compute. reflexivity.
  - vm_compute. reflexivity.
  - left.
Defined.

Lemma succeeded_of_wait_witness :
  let r := wait two_builds two 0 (Some quiet) 0 2 in
  let l := dict_values (munches r.1) in
  (succeeded l = true ↔
     ∀ i, i ∈ watched (init two) →
          ∃ m, last (omap (got i) (trace r.1)) = Some m ∧ state m = "succeeded") ∧
  (succeeded l = true → failed r.1 = []) ∧
  (failed r.1 ≠ [] → succeeded l = false).
Proof.
  intros r l.
  apply (succeeded_of_wait two_builds two 0 (Some quiet) 0 2 r.1 l).
  vm_compute. reflexivity.
Defined.

Lemma one_proxy_per_build_witness :
  let r := wait two_builds two 0 (Some quiet) 0 2 in
  (∀ p i x, EvGet p i x ∈ trace r.1 →
     ∃ b0, dict_get i (munches (init two)) = Some b0 ∧ b0 ∈ builds two ∧
           resolve two b0 = AttrProxy p) ∧
  (∀ p p' i x x',
     EvGet p i x ∈ trace r.1 → EvGet p' i x' ∈ trace r.1 → p = p').
Proof.
  intros r.
  apply (one_proxy_per_build two_builds two 0 (Some quiet) 0 2 r.1 r.2).
  - intros h p i b Hget. simpl in Hget. injection Hget as <-. reflexivity.
  - vm_compute. reflexivity.
Defined.

Lemma accepted_encrypted_not_http_witness :
  let c := Config None None (Some "s3cr3t") (Some "https://copr.example.org")
             false true in
  read_fields (cli_file [("copr_url", "https://copr.example.org");
                         ("token", "s3cr3t")]) = inr c ∧
  (encrypted c = true →
   ∃ url, copr_url c = Some url ∧ startswith url "http://" = false).
Proof.
  intros c.
  apply (accepted_encrypted_not_http
           (ReadFile (cli_file [("copr_url", "https://copr.example.org");
                                ("token", "s3cr3t")])) c).
  vm_compute. reflexivity.
Defined.

Lemma config_from_file_exceptions_witness :
  let read := ReadFile (cli_file [("copr_url", "https://copr.example.org");
                                  ("encrypted", "maybe")]) in
  let x := Exn ValueError "Not a boolean: maybe" in
  exn_cls x ∈ [OtherError "CoprConfigException"; KeyError; ValueError;
               AttributeError] ∧
  (exn_cls x = KeyError ↔ ∃ secs, read = ReadFile secs ∧ secs "copr-cli" = None) ∧
  (exn_cls x = ValueError →
     ∃ secs sec o v, read = ReadFile secs ∧ secs "copr-cli" = Some sec ∧
       o ∈ ["encrypted"; "gssapi"] ∧ sec o = Some (inr v) ∧
       x = Exn ValueError ("Not a boolean: " +:+ v)) ∧
  (∀ msg, read = ReadError msg → x = CoprConfigException msg).
Proof.
  intros read x. apply (config_from_file_exceptions read x).
  vm_compute. reflexivity.
Defined.

Lemma missing_copr_url_witness :
  config_from_file (ReadFile (cli_file [("username", "frank")]))
    = inl (Exn AttributeError "") ∧
  (plain_section [("username", "frank")] "encrypted" = None → true = true).
Proof.
  apply (missing_copr_url (cli_file [("username", "frank")])
           (plain_section [("username", "frank")]) true false).
  - reflexivity.
  - apply plain_section_plain.
  - reflexivity.
  - reflexivity.
  - reflexivity.
Defined.

Lemma encrypted_off_accepts_any_url_witness :
  config_from_file
    (ReadFile (cli_file [("copr_url", "http://copr.local"); ("encrypted", "No")]))
  = inr (Config None None None (Some "http://copr.local") false false).
Proof.
  apply (encrypted_off_accepts_any_url
           (cli_file [("copr_url", "http://copr.local"); ("encrypted", "No")])
           (plain_section [("copr_url", "http://copr.local"); ("encrypted", "No")])
           "No" false).
  - reflexivity.
  - apply plain_section_plain.
  - reflexivity.
  - apply (bool_decide_unpack _). vm_compute. exact I.
  - reflexivity.
Defined.

Lemma config_defaults_witness :
  config_from_file
    (ReadFile (λ name, if decide (name = "copr-cli")
                       then Some (λ o, if decide (o = "copr_url")
                                       then Some (inr "https://copr.example.org")
                                       else None)
                       else None))
    = inr (Config None None None (Some "https://copr.example.org") false true) ∧
  config_from_file ReadNothing
    = inr (Config None None None (Some "https://copr.fedorainfracloud.org")
             false true).
Proof. apply (config_defaults "https://copr.example.org"). reflexivity. Defined.

Lemma login_url_not_http_witness :
  let c := Config None None None (Some "https://copr.example.org") true true in
  ∃ u, copr_url c = Some u ∧
       login_url c = inr (u +:+ "/api_v3/gssapi_login/") ∧
       (∀ get1 get2,
          get1 (u +:+ "/api_v3/gssapi_login/") = get2 (u +:+ "/api_v3/gssapi_login/") →
          get_session_cookie get1 c = get_session_cookie get2 c) ∧
       (∀ get cookies,
          get (u +:+ "/api_v3/gssapi_login/") = Response cookies →
          get_session_cookie get c = inr (cookies "session")) ∧
       (startswith (u +:+ "/api_v3/gssapi_login/") "http://" = true ↔ u = "http:/").
Proof.
  intros c.
  apply (login_url_not_http
           (ReadFile (cli_file [("copr_url", "https://copr.example.org");
                                ("gssapi", "yes")])) c).
  - vm_compute. reflexivity.
  - reflexivity.
Defined.

